(** * A shallow embedding of bloom.c (version 1.7.5)

    The C functions of [src/bloom.c] are transcribed as functions over an
    explicit [BloomFilter] record.  Integers of a fixed width are [Z] with
    the wrap-around written out, the bit array is a [list Z] of bytes
    indexed with stdpp's lookup and insert, and [double] values are the
    kernel's binary64 floats.  A C operation whose behaviour is undefined
    (a read or write outside the buffer, a remainder by zero, a call
    through a null pointer, a float to integer conversion out of range)
    yields [None]. *)

From Stdlib Require Import ZArith Lia Floats String Ascii.
From stdpp Require Import base tactics option list gmap strings.

Local Open Scope Z_scope.

(** ** Machine integers *)

Definition UINT64_MAX : Z := 2 ^ 64 - 1.
Definition INT_MAX : Z := 2 ^ 31 - 1.

(** Conversion to [unsigned char], [unsigned int] and [uint64_t]. *)
Definition u8 (z : Z) : Z := z mod 2 ^ 8.
Definition u32 (z : Z) : Z := z mod 2 ^ 32.
Definition u64 (z : Z) : Z := z mod 2 ^ 64.

(** Conversion to [int] and [long] (two's complement, as gcc and clang
    define the out-of-range case). *)
Definition to_int (z : Z) : Z := (z + 2 ^ 31) mod 2 ^ 32 - 2 ^ 31.
Definition to_long (z : Z) : Z := (z + 2 ^ 63) mod 2 ^ 64 - 2 ^ 63.

(** [a % b] on unsigned operands; undefined for [b = 0]. *)
Definition umod (a b : Z) : option Z :=
  if b =? 0 then None else Some (a mod b).

(** ** The filter *)

(** [bloom.h] is not part of the sources at hand.  Its two result codes
    are used only symbolically by [bloom.c]; they are two distinct
    [int] constants and are modelled as an enumeration. *)
Inductive status : Set := BLOOM_SUCCESS | BLOOM_FAILURE.

(** The type [HashFunction] of [bloom.h]: a function from an [int]
    number of hashes and a string to an array of [uint64_t], here the
    list of the array's elements.  A hash family answers the same key
    with the same values, so it is a function of its arguments. *)
Definition HashFunction : Type := Z -> string -> list Z.

(** The fields [bloom.c] reads and writes.  [false_positive_probability]
    is a C [float], kept as its 32-bit pattern; [bloom] is the region
    the pointer addresses (the empty list for [NULL]); [hash_function]
    and [filepointer] are [None] for [NULL].  For a filter on disk the
    region is the shared mapping of the whole file, trailer included. *)
Record BloomFilter : Type := mkBloomFilter {
  estimated_elements : Z;
  false_positive_probability : Z;
  number_hashes : Z;
  number_bits : Z;
  bloom : list Z;
  bloom_length : Z;
  elements_added : Z;
  hash_function : option HashFunction;
  __is_on_disk : Z;
  filepointer : option string;
  __filesize : Z
}.

Definition with_bloom (A : list Z) (bf : BloomFilter) : BloomFilter :=
  mkBloomFilter (estimated_elements bf) (false_positive_probability bf)
    (number_hashes bf) (number_bits bf) A (bloom_length bf)
    (elements_added bf) (hash_function bf) (__is_on_disk bf)
    (filepointer bf) (__filesize bf).

Definition with_elements_added (e : Z) (bf : BloomFilter) : BloomFilter :=
  mkBloomFilter (estimated_elements bf) (false_positive_probability bf)
    (number_hashes bf) (number_bits bf) (bloom bf) (bloom_length bf)
    e (hash_function bf) (__is_on_disk bf)
    (filepointer bf) (__filesize bf).

Definition with_hash_function (h : option HashFunction) (bf : BloomFilter)
  : BloomFilter :=
  mkBloomFilter (estimated_elements bf) (false_positive_probability bf)
    (number_hashes bf) (number_bits bf) (bloom bf) (bloom_length bf)
    (elements_added bf) h (__is_on_disk bf)
    (filepointer bf) (__filesize bf).

Definition with_is_on_disk (d : Z) (bf : BloomFilter) : BloomFilter :=
  mkBloomFilter (estimated_elements bf) (false_positive_probability bf)
    (number_hashes bf) (number_bits bf) (bloom bf) (bloom_length bf)
    (elements_added bf) (hash_function bf) d
    (filepointer bf) (__filesize bf).

(** ** Bytes and bits *)

(** Little-endian bytes of an unsigned value ([fwrite] of a [uint64_t] or
    a [float] on the x86 targets the library is built for). *)
Fixpoint le_bytes (width : nat) (z : Z) : list Z :=
  match width with
  | O => []
  | S w => z mod 256 :: le_bytes w (z / 256)
  end.

Fixpoint le_value (bs : list Z) : Z :=
  match bs with
  | [] => 0
  | b :: bs' => b + 256 * le_value bs'
  end.

(** [memcpy]-like store of [src] into [A] from index [i] on. *)
Fixpoint write_at (i : nat) (src : list Z) (A : list Z) : option (list Z) :=
  match src with
  | [] => Some A
  | b :: src' =>
      if decide (i < length A)%nat
      then write_at (S i) src' (<[i := b]> A)
      else None
  end.

(** [A[k / 8] |= (1 << (k % 8))], the statement of the insert loop (the
    source keeps the macro of this name in a comment). *)
Definition set_bit (A : list Z) (k : Z) : option (list Z) :=
  b ← A !! Z.to_nat (k / 8);
  Some (<[Z.to_nat (k / 8) := u8 (Z.lor b (Z.shiftl 1 (k mod 8)))]> A).

(** [#define check_bit(A,k) (A[((k) / 8)] & (1 << ((k) % 8)))] *)
Definition check_bit (A : list Z) (k : Z) : option Z :=
  b ← A !! Z.to_nat (k / 8);
  Some (Z.land b (Z.shiftl 1 (k mod 8))).

(** ** Insert and membership test *)

(** The loop of [bloom_filter_add_string_alt], from index [i] for [n]
    more rounds. *)
Fixpoint add_loop (m : Z) (hashes : list Z) (i n : nat) (A : list Z)
  : option (list Z) :=
  match n with
  | O => Some A
  | S n' =>
      h ← hashes !! i;
      k ← umod h m;
      A' ← set_bit A k;
      add_loop m hashes (S i) n' A'
  end.

(** [fseek(fp, -12, SEEK_END); fwrite(&elements_added, 8, 1, fp)] on the
    file the region maps. *)
Definition write_counter (e : Z) (A : list Z) : option (list Z) :=
  if decide (12 <= length A)%nat
  then write_at (length A - 12) (le_bytes 8 e) A
  else None.

Definition bloom_filter_add_string_alt (bf : BloomFilter) (hashes : list Z)
    (number_hashes_passed : Z) : option (status * BloomFilter) :=
  if number_hashes_passed <? number_hashes bf
  then Some (BLOOM_FAILURE, bf)
  else
    A ← add_loop (number_bits bf) hashes 0 (Z.to_nat (number_hashes bf))
          (bloom bf);
    let e := u64 (elements_added bf + 1) in
    if __is_on_disk bf =? 1
    then
      A' ← write_counter e A;
      Some (BLOOM_SUCCESS, with_elements_added e (with_bloom A' bf))
    else Some (BLOOM_SUCCESS, with_elements_added e (with_bloom A bf)).

(** The loop of [bloom_filter_check_string_alt]; [r] starts as
    [BLOOM_SUCCESS] and the first clear bit ends the loop. *)
Fixpoint check_loop (m : Z) (hashes : list Z) (i n : nat) (A : list Z)
  : option status :=
  match n with
  | O => Some BLOOM_SUCCESS
  | S n' =>
      h ← hashes !! i;
      k ← umod h m;
      tmp_check ← check_bit A k;
      if tmp_check =? 0 then Some BLOOM_FAILURE
      else check_loop m hashes (S i) n' A
  end.

Definition bloom_filter_check_string_alt (bf : BloomFilter) (hashes : list Z)
    (number_hashes_passed : Z) : option status :=
  if number_hashes_passed <? number_hashes bf
  then Some BLOOM_FAILURE
  else check_loop (number_bits bf) hashes 0 (Z.to_nat (number_hashes bf))
         (bloom bf).

(** [bf->hash_function(number_hashes, str)]; the [unsigned int] argument
    is passed as [int]. *)
Definition bloom_filter_calculate_hashes (bf : BloomFilter) (str : string)
    (number_hashes : Z) : option (list Z) :=
  hf ← hash_function bf;
  Some (hf (to_int number_hashes) str).

Definition bloom_filter_add_string (bf : BloomFilter) (str : string)
  : option (status * BloomFilter) :=
  hashes ← bloom_filter_calculate_hashes bf str (number_hashes bf);
  bloom_filter_add_string_alt bf hashes (number_hashes bf).

Definition bloom_filter_check_string (bf : BloomFilter) (str : string)
  : option status :=
  hashes ← bloom_filter_calculate_hashes bf str (number_hashes bf);
  bloom_filter_check_string_alt bf hashes (number_hashes bf).

(** ** Clear and destroy *)

(** The loop of [bloom_filter_clear]: [bloom[i] = 0] for [n] indices
    from [i] on. *)
Fixpoint clear_loop (i n : nat) (A : list Z) : option (list Z) :=
  match n with
  | O => Some A
  | S n' =>
      if decide (i < length A)%nat
      then clear_loop (S i) n' (<[i := 0]> A)
      else None
  end.

Definition bloom_filter_clear (bf : BloomFilter)
  : option (status * BloomFilter) :=
  A ← clear_loop 0 (Z.to_nat (bloom_length bf)) (bloom bf);
  Some (BLOOM_SUCCESS, with_elements_added 0 (with_bloom A bf)).

(** [bloom_length] is the one field [bloom_filter_destroy] leaves as it
    is. *)
Definition bloom_filter_destroy (bf : BloomFilter) : status * BloomFilter :=
  (BLOOM_SUCCESS,
   mkBloomFilter 0 0 0 0 [] (bloom_length bf) 0 None 0 None 0).

(** ** Strings

    A [string] is the sequence of characters a [char*] addresses before
    the terminating NUL, so [strlen] is [String.length]. *)

Definition chars (s : string) : list ascii := list_ascii_of_string s.

Definition byte_of_char (c : ascii) : Z := Z.of_N (N_of_ascii c).

(** ** Floating point

    A [double] is a binary64 float of the kernel; its arithmetic is
    IEEE 754 with rounding to nearest even, as the C code runs it on the
    build targets.  [ceil] and [round] are exact, so they are defined
    here; [log], [exp] and [pow] come from libm and are parameters of
    the functions that call them. *)

(** Conversion of an integer ([long], [uint64_t], [unsigned int], [int])
    to [double]. *)
Definition float_of_Z (z : Z) : float :=
  SF2Prim (binary_normalize prec emax z 0 false).

(** The [double] a [float] with bit pattern [w] promotes to. *)
Definition float_of_bits32 (w : Z) : float :=
  let s := Z.testbit w 31 in
  let e := (w / 2 ^ 23) mod 2 ^ 8 in
  let f := w mod 2 ^ 23 in
  if e =? 255 then
    if f =? 0 then (if s then neg_infinity else infinity) else nan
  else if e =? 0 then
    if f =? 0 then (if s then neg_zero else PrimFloat.zero)
    else SF2Prim (S754_finite s (Z.to_pos f) (-149))
  else SF2Prim (S754_finite s (Z.to_pos (2 ^ 23 + f)) (e - 150)).

(** Conversion of a [double] to [float] (rounding to 24 bits), the
    result held as the [double] of the same value. *)
Definition to_float32 (x : float) : float :=
  match Prim2SF x with
  | S754_finite s m e =>
      SF2Prim (binary_normalize 24 128 (if s then Z.neg m else Z.pos m) e s)
  | _ => x
  end.

Definition ceil (x : float) : float :=
  match Prim2SF x with
  | S754_finite s m e =>
      if 0 <=? e then x
      else
        let z := if s then - (Z.pos m / 2 ^ (- e))
                 else (Z.pos m + 2 ^ (- e) - 1) / 2 ^ (- e) in
        if z =? 0 then (if s then neg_zero else PrimFloat.zero)
        else float_of_Z z
  | _ => x
  end.

(** [round] of C99: to the nearest integer, halfway cases away from
    zero. *)
Definition round (x : float) : float :=
  match Prim2SF x with
  | S754_finite s m e =>
      if 0 <=? e then x
      else
        let a := (2 * Z.pos m + 2 ^ (- e)) / 2 ^ (1 - e) in
        if a =? 0 then (if s then neg_zero else PrimFloat.zero)
        else float_of_Z (if s then - a else a)
  | _ => x
  end.

(** The integral part of a finite [double]. *)
Definition trunc (x : float) : option Z :=
  match Prim2SF x with
  | S754_zero _ => Some 0
  | S754_finite s m e =>
      let a := if 0 <=? e then Z.pos m * 2 ^ e else Z.pos m / 2 ^ (- e) in
      Some (if s then - a else a)
  | _ => None
  end.

(** Conversions of a [double] to an integer type: undefined when the
    integral part is not a value of the type. *)
Definition double_to_uint64 (x : float) : option Z :=
  z ← trunc x;
  if (0 <=? z) && (z <=? UINT64_MAX) then Some z else None.

Definition double_to_uint (x : float) : option Z :=
  z ← trunc x;
  if (0 <=? z) && (z <? 2 ^ 32) then Some z else None.

Definition double_to_long (x : float) : option Z :=
  z ← trunc x;
  if (- 2 ^ 63 <=? z) && (z <? 2 ^ 63) then Some z else None.

Definition CHAR_LEN : Z := 8.

#[warnings="-inexact-float"]
Definition LOG_TWO_SQUARED : float := 0.4804530139182%float.

(** ** Parameter derivation *)

Definition with_parameters (k m num_pos : Z) (bf : BloomFilter)
  : BloomFilter :=
  mkBloomFilter (estimated_elements bf) (false_positive_probability bf)
    k m (bloom bf) num_pos
    (elements_added bf) (hash_function bf) (__is_on_disk bf)
    (filepointer bf) (__filesize bf).

(** The arithmetic of [calculate_optimal_hashes] once libm has answered:
    [log_p] is [log(p)] and [log_2] is [log(2.0)]. *)
Definition optimal_hashes (log_p log_2 : float) (n : Z)
  : option (Z * Z * Z) :=
  if n =? - 2 ^ 63 then None
  else
    m ← double_to_uint64
          (ceil (float_of_Z (- n) * log_p / LOG_TWO_SQUARED)%float);
    k ← double_to_uint (round (log_2 * float_of_Z m / float_of_Z n)%float);
    num_pos ← double_to_long
                (ceil (float_of_Z m / (float_of_Z CHAR_LEN * 1.0))%float);
    Some (m, k, num_pos).

Section Libm.

Variable log : float -> float.
Variable exp : float -> float.
Variable pow : float -> float -> float.

Definition calculate_optimal_hashes (bf : BloomFilter)
  : option BloomFilter :=
  let n := to_long (estimated_elements bf) in
  let p := float_of_bits32 (false_positive_probability bf) in
  '(m, k, num_pos) ← optimal_hashes (log p) (log 2.0%float) n;
  Some (with_parameters k m num_pos bf).

(** [num], the [int] the rate estimate starts from: the product is
    taken in [unsigned int], then in [uint64_t], and stored into an
    [int]. *)
Definition rate_num (bf : BloomFilter) : Z :=
  to_int (u64 (u32 (number_hashes bf * -1) * elements_added bf)).

(** [d], the argument handed to [exp]. *)
Definition rate_exponent (bf : BloomFilter) : float :=
  (float_of_Z (rate_num bf) * 1.0 / (float_of_Z (number_bits bf) * 1.0))%float.

Definition bloom_filter_current_false_positive_rate (bf : BloomFilter)
  : float :=
  let d := rate_exponent bf in
  let e := exp d in
  to_float32 (pow (float_of_Z 1 - e)%float (float_of_Z (number_hashes bf))).

End Libm.

(** ** The default hash family *)

Section Digest.

(** [MD5_Init], [MD5_Update], [MD5_Final] of OpenSSL in one step: the
    digest, sixteen bytes, of a byte sequence. *)
Variable MD5 : list Z -> list Z.

(** The loop of [md5_hash_default]: [data] is the key in the first
    round and the previous digest afterwards; a result is the first
    eight bytes of the digest read as a [uint64_t]. *)
Fixpoint md5_rounds (n : nat) (data : list Z) : list Z :=
  match n with
  | O => []
  | S n' =>
      let digest := MD5 data in
      le_value (take 8 digest) :: md5_rounds n' digest
  end.

Definition md5_hash_default (num_hashes : Z) (str : string) : list Z :=
  md5_rounds (Z.to_nat num_hashes) (map byte_of_char (chars str)).

Definition bloom_filter_set_hash_function (bf : BloomFilter)
    (hash_function : option HashFunction) : BloomFilter :=
  with_hash_function
    (Some (match hash_function with
           | None => md5_hash_default
           | Some h => h
           end)) bf.

End Digest.

(** ** Initialisation *)

(** The test both [bloom_filter_init_alt] and
    [bloom_filter_init_on_disk_alt] open with. *)
Definition invalid_parameters (estimated_elements false_positive_rate : Z)
  : bool :=
  let p := float_of_bits32 false_positive_rate in
  (estimated_elements <=? 0) || (estimated_elements >? UINT64_MAX)
  || (p <=? 0.0)%float || (1.0 <=? p)%float.

Definition with_request (n p : Z) (bf : BloomFilter) : BloomFilter :=
  mkBloomFilter n p (number_hashes bf) (number_bits bf) (bloom bf)
    (bloom_length bf) (elements_added bf) (hash_function bf)
    (__is_on_disk bf) (filepointer bf) (__filesize bf).

(** [calloc(n, 1)]: [n] zero bytes (no byte for a count that is not
    positive). *)
Definition calloc (n : Z) : list Z := replicate (Z.to_nat n) 0.

Section Initialisation.

Variable MD5 : list Z -> list Z.
Variable log : float -> float.

Definition bloom_filter_init_alt (bf : BloomFilter)
    (estimated_elements false_positive_rate : Z)
    (hash_function : option HashFunction) : option (status * BloomFilter) :=
  if invalid_parameters estimated_elements false_positive_rate
  then Some (BLOOM_FAILURE, bf)
  else
    bf ← calculate_optimal_hashes log
           (with_request estimated_elements false_positive_rate bf);
    let bf := with_bloom (calloc (bloom_length bf)) bf in
    let bf := with_elements_added 0 bf in
    let bf := bloom_filter_set_hash_function MD5 bf hash_function in
    Some (BLOOM_SUCCESS, with_is_on_disk 0 bf).

End Initialisation.

(** ** Hexadecimal export and import *)

Definition hex_char (d : Z) : ascii :=
  ascii_of_N (Z.to_N (if d <? 10 then 48 + d else 87 + d)).

(** The value of a hexadecimal digit, in either case. *)
Definition hex_value (c : ascii) : option Z :=
  let n := byte_of_char c in
  if (48 <=? n) && (n <=? 57) then Some (n - 48)
  else if (97 <=? n) && (n <=? 102) then Some (n - 87)
  else if (65 <=? n) && (n <=? 70) then Some (n - 55)
  else None.

(** [sprintf] with [%02x], [%016lx] or [%08x]: [width] digits, the most
    significant first.  The argument is an [unsigned char], a
    [uint64_t] or an [unsigned int], whose digits are no more than
    that. *)
Fixpoint sprintf_hex (width : nat) (z : Z) : list ascii :=
  match width with
  | O => []
  | S w => sprintf_hex w (z / 16) ++ [hex_char (z mod 16)]
  end.

(** The hexadecimal digits a string starts with. *)
Fixpoint hex_digits (s : list ascii) : list Z :=
  match s with
  | [] => []
  | c :: s' =>
      match hex_value c with
      | Some d => d :: hex_digits s'
      | None => []
      end
  end.

Definition digits_value (ds : list Z) : Z :=
  fold_left (fun acc d => 16 * acc + d) ds 0.

(** What the C library skips or reads before the digits (white space,
    a sign, a [0x] prefix) is left out of the model: on such a string
    the conversions below yield [None]. *)
Definition beyond_digits (s : list ascii) : bool :=
  match s with
  | [] => false
  | c :: s' =>
      let n := byte_of_char c in
      (n =? 32) || ((9 <=? n) && (n <=? 13)) || (n =? 43) || (n =? 45)
      || ((n =? 48) &&
          match s' with
          | c' :: _ => (byte_of_char c' =? 120) || (byte_of_char c' =? 88)
          | [] => false
          end)
  end.

Definition scan_hex (s : list ascii) : option (list Z) :=
  if beyond_digits s then None else Some (hex_digits s).

(** [strtoull(s, NULL, 16)]: zero without a digit, [ULLONG_MAX] on
    overflow. *)
Definition strtoull16 (s : list ascii) : option Z :=
  ds ← scan_hex s;
  Some (Z.min (digits_value ds) UINT64_MAX).

(** [sscanf(s, "%x", &t)] into an uninitialised [uint32_t]: without a
    digit nothing is stored and the value read afterwards is
    indeterminate. *)
Definition sscanf_x (s : list ascii) : option Z :=
  ds ← scan_hex s;
  match ds with
  | [] => None
  | _ => Some (u32 (digits_value ds))
  end.

(** [sscanf(s, "%2hhx", &b)]: at most two characters are read; without
    a digit [b] keeps its value. *)
Definition sscanf_2hhx (s : list ascii) (b : Z) : option Z :=
  ds ← scan_hex (take 2 s);
  match ds with
  | [] => Some b
  | _ => Some (u8 (digits_value ds))
  end.

(** The first loop of [bloom_filter_export_hex_string]. *)
Fixpoint export_loop (i n : nat) (A : list Z) : option (list ascii) :=
  match n with
  | O => Some []
  | S n' =>
      b ← A !! i;
      rest ← export_loop (S i) n' A;
      Some (sprintf_hex 2 b ++ rest)
  end.

(** The index [i] is a [uint64_t] here, in the import below and in
    [write_to_file]: a negative [bloom_length] is compared as a bound
    past any buffer, which is undefined. *)
Definition bloom_filter_export_hex_string (bf : BloomFilter)
  : option string :=
  if bloom_length bf <? 0 then None
  else
    hex ← export_loop 0 (Z.to_nat (bloom_length bf)) (bloom bf);
    Some (string_of_list_ascii
            (hex ++ sprintf_hex 16 (estimated_elements bf)
                 ++ sprintf_hex 16 (elements_added bf)
                 ++ sprintf_hex 8 (false_positive_probability bf))).

(** The loop of [bloom_filter_import_hex_string_alt]: [hex + i * 2] is
    [drop (i * 2) hex], defined up to the terminator. *)
Fixpoint import_loop (hex : list ascii) (i n : nat) (A : list Z)
  : option (list Z) :=
  match n with
  | O => Some A
  | S n' =>
      if decide (i * 2 <= length hex)%nat then
        b ← A !! i;
        b' ← sscanf_2hhx (drop (i * 2) hex) b;
        import_loop hex (S i) n' (<[i := b']> A)
      else None
  end.

Definition with_counters (n e p : Z) (bf : BloomFilter) : BloomFilter :=
  mkBloomFilter n p (number_hashes bf) (number_bits bf) (bloom bf)
    (bloom_length bf) e (hash_function bf)
    (__is_on_disk bf) (filepointer bf) (__filesize bf).

Section HexImport.

Variable MD5 : list Z -> list Z.
Variable log : float -> float.

Definition bloom_filter_import_hex_string_alt (bf : BloomFilter)
    (hex : string) (hash_function : option HashFunction)
  : option (status * BloomFilter) :=
  let len := length (chars hex) in
  if negb (len mod 2 =? 0)%nat then Some (BLOOM_FAILURE, bf)
  else if decide (40 <= len)%nat then
    let fpr := take 8 (drop (len - 8) (chars hex)) in
    let ins_els := take 16 (drop (len - 24) (chars hex)) in
    let est_els := take 16 (drop (len - 40) (chars hex)) in
    est ← strtoull16 est_els;
    ins ← strtoull16 ins_els;
    t_fpr ← sscanf_x fpr;
    let bf := with_counters est ins t_fpr bf in
    let bf := bloom_filter_set_hash_function MD5 bf hash_function in
    bf ← calculate_optimal_hashes log bf;
    let bf := with_is_on_disk 0 (with_bloom (calloc (bloom_length bf)) bf) in
    if bloom_length bf <? 0 then None
    else
      A ← import_loop (chars hex) 0 (Z.to_nat (bloom_length bf)) (bloom bf);
      Some (BLOOM_SUCCESS, with_bloom A bf)
  else None.

End HexImport.

Definition bloom_filter_export_size (bf : BloomFilter) : Z :=
  u64 (u64 (bloom_length bf * 1) + 2 * 8 + 4).

(** ** Files

    The file system a filter is exported to, imported from or mapped
    over: the content of each file, and the paths [fopen] and [open]
    can open for update.  Buffering by stdio is not modelled: what is
    written is in the file. *)
Record FileSystem : Type := mkFileSystem {
  files : gmap string (list Z);
  permitted : string -> bool
}.

(** [fopen(path, "w+b")]: the file is created or truncated. *)
Definition fopen_w (fs : FileSystem) (path : string) : option FileSystem :=
  if permitted fs path
  then Some (mkFileSystem (<[path := []]> (files fs)) (permitted fs))
  else None.

(** [fopen(path, "r+b")], and [open(path, O_RDWR)]: the file must
    exist. *)
Definition fopen_r (fs : FileSystem) (path : string) : option (list Z) :=
  if permitted fs path then files fs !! path else None.

Definition fwrite (fs : FileSystem) (path : string) (bytes : list Z)
  : FileSystem :=
  mkFileSystem (alter (fun old => old ++ bytes) path (files fs))
    (permitted fs).

(** The bytes [write_to_file] sends to the stream. *)
Definition write_to_file (bf : BloomFilter) (on_disk : Z)
  : option (list Z) :=
  body ← (if bloom_length bf <? 0 then None
           else if on_disk =? 0
           then
             if decide (Z.to_nat (bloom_length bf) <= length (bloom bf))%nat
             then Some (take (Z.to_nat (bloom_length bf)) (bloom bf))
             else None
           else Some (replicate (Z.to_nat (bloom_length bf)) 0));
  Some (body ++ le_bytes 8 (estimated_elements bf)
             ++ le_bytes 8 (elements_added bf)
             ++ le_bytes 4 (false_positive_probability bf)).

Definition with_mapping (A : list Z) (size : Z) (bf : BloomFilter)
  : BloomFilter :=
  mkBloomFilter (estimated_elements bf) (false_positive_probability bf)
    (number_hashes bf) (number_bits bf) A (bloom_length bf)
    (elements_added bf) (hash_function bf) (__is_on_disk bf)
    (filepointer bf) size.

Definition with_filepointer (fp : option string) (bf : BloomFilter)
  : BloomFilter :=
  mkBloomFilter (estimated_elements bf) (false_positive_probability bf)
    (number_hashes bf) (number_bits bf) (bloom bf) (bloom_length bf)
    (elements_added bf) (hash_function bf) (__is_on_disk bf)
    fp (__filesize bf).

Section Storage.

Variable MD5 : list Z -> list Z.
Variable log : float -> float.

(** [read_from_file] on a stream whose file holds [content].  A file
    shorter than the trailer makes [fseek] fail, which the source does
    not test: that case is left undefined.  In memory, [fread] fills
    the fresh buffer with the [bloom_length] first bytes the file has;
    on disk the region is the mapping of the whole file.  The second
    [open] and the [mmap] succeed on a file [fopen] has just opened, so
    the two [exit(1)] are not reached. *)
Definition read_from_file (bf : BloomFilter) (content : list Z)
    (on_disk : Z) : option BloomFilter :=
  if decide (20 <= length content)%nat then
    let trailer := drop (length content - 20) content in
    let bf :=
      with_counters (le_value (take 8 trailer))
        (le_value (take 8 (drop 8 trailer)))
        (le_value (take 4 (drop 16 trailer))) bf in
    bf ← calculate_optimal_hashes log bf;
    if on_disk =? 0
    then
      if bloom_length bf <? 0 then None
      else
        let n := Z.to_nat (bloom_length bf) in
        Some (with_bloom
                (take n content ++ replicate (n - length content) 0) bf)
    else Some (with_mapping content (Z.of_nat (length content)) bf)
  else None.

Definition bloom_filter_export (fs : FileSystem) (bf : BloomFilter)
    (filepath : string) : option (status * FileSystem) :=
  if __is_on_disk bf =? 1 then Some (BLOOM_SUCCESS, fs)
  else
    match fopen_w fs filepath with
    | None => Some (BLOOM_FAILURE, fs)
    | Some fs =>
        bytes ← write_to_file bf 0;
        Some (BLOOM_SUCCESS, fwrite fs filepath bytes)
    end.

Definition bloom_filter_import_alt (fs : FileSystem) (bf : BloomFilter)
    (filepath : string) (hash_function : option HashFunction)
  : option (status * BloomFilter) :=
  match fopen_r fs filepath with
  | None => Some (BLOOM_FAILURE, bf)
  | Some content =>
      bf ← read_from_file bf content 0;
      let bf := bloom_filter_set_hash_function MD5 bf hash_function in
      Some (BLOOM_SUCCESS, with_is_on_disk 0 bf)
  end.

Definition bloom_filter_import_on_disk_alt (fs : FileSystem)
    (bf : BloomFilter) (filepath : string)
    (hash_function : option HashFunction) : option (status * BloomFilter) :=
  match fopen_r fs filepath with
  | None => Some (BLOOM_FAILURE, with_filepointer None bf)
  | Some content =>
      bf ← read_from_file (with_filepointer (Some filepath) bf) content 1;
      let bf := bloom_filter_set_hash_function MD5 bf hash_function in
      Some (BLOOM_SUCCESS, with_is_on_disk 1 bf)
  end.

Definition bloom_filter_init_on_disk_alt (fs : FileSystem)
    (bf : BloomFilter) (estimated_elements false_positive_rate : Z)
    (filepath : string) (hash_function : option HashFunction)
  : option (status * BloomFilter * FileSystem) :=
  if invalid_parameters estimated_elements false_positive_rate
  then Some (BLOOM_FAILURE, bf, fs)
  else
    bf ← calculate_optimal_hashes log
           (with_request estimated_elements false_positive_rate bf);
    let bf := with_elements_added 0 bf in
    match fopen_w fs filepath with
    | None => Some (BLOOM_FAILURE, bf, fs)
    | Some fs =>
        bytes ← write_to_file bf 1;
        let fs := fwrite fs filepath bytes in
        r ← bloom_filter_import_on_disk_alt fs bf filepath hash_function;
        Some (r.1, r.2, fs)
    end.

End Storage.

(** ** Histories of operations *)

(** The operations of the active phase that keep the filter's
    configuration: the two inserts, the two membership tests and the
    read-only reports.  ([bloom_filter_clear], [bloom_filter_destroy],
    the initialisers, the importers and
    [bloom_filter_set_hash_function] replace the bit array, the
    parameters or the hash family.) *)
Inductive operation : Type :=
| add_string (str : string)
| add_string_alt (hashes : list Z) (number_hashes_passed : Z)
| check_string (str : string)
| check_string_alt (hashes : list Z) (number_hashes_passed : Z)
| current_false_positive_rate
| export_hex_string
| export_size.

Definition is_insert (op : operation) : bool :=
  match op with
  | add_string _ | add_string_alt _ _ => true
  | _ => false
  end.

(** The filter after one operation; the value the operation returns is
    dropped, an undefined operation ends the history. *)
Definition step (op : operation) (bf : BloomFilter) : option BloomFilter :=
  match op with
  | add_string str => snd <$> bloom_filter_add_string bf str
  | add_string_alt hashes n => snd <$> bloom_filter_add_string_alt bf hashes n
  | check_string str => _ ← bloom_filter_check_string bf str; Some bf
  | check_string_alt hashes n =>
      _ ← bloom_filter_check_string_alt bf hashes n; Some bf
  | current_false_positive_rate => Some bf
  | export_hex_string => _ ← bloom_filter_export_hex_string bf; Some bf
  | export_size => Some bf
  end.

Fixpoint run (ops : list operation) (bf : BloomFilter)
  : option BloomFilter :=
  match ops with
  | [] => Some bf
  | op :: ops' => bf' ← step op bf; run ops' bf'
  end.

(** ** Valid filters *)

(** Bit [j] of the array is set. *)
Definition bit_on (A : list Z) (j : Z) : Prop :=
  exists b, A !! Z.to_nat (j / 8) = Some b /\ Z.testbit b (j mod 8) = true.

(** The region a filter owns: [bloom_length] bytes in memory, the file
    of [bloom_length + 20] bytes when mapped. *)
Definition region_ok (bf : BloomFilter) : Prop :=
  Z.of_nat (length (bloom bf)) =
    bloom_length bf + (if __is_on_disk bf =? 1 then 20 else 0).

(** The contract of a hash family: as many values as asked for. *)
Definition hash_contract (hf : HashFunction) : Prop :=
  forall n str, length (hf n str) = Z.to_nat n.

(** What the initialisers and importers establish on valid parameters
    and every operation of a history keeps. *)
Record valid_filter (bf : BloomFilter) : Prop := mk_valid_filter {
  valid_bits : 0 < number_bits bf;
  valid_cover : number_bits bf <= 8 * bloom_length bf;
  valid_hashes : 0 <= number_hashes bf <= INT_MAX;
  valid_region : region_ok bf;
  valid_family : exists hf, hash_function bf = Some hf /\ hash_contract hf
}.

(** [bf'] has the configuration of [bf] and every bit [bf] has set. *)
Definition extends (bf bf' : BloomFilter) : Prop :=
  number_bits bf' = number_bits bf /\
  number_hashes bf' = number_hashes bf /\
  hash_function bf' = hash_function bf /\
  forall j, 0 <= j < number_bits bf ->
    bit_on (bloom bf) j -> bit_on (bloom bf') j.

(** The derived fields are those [calculate_optimal_hashes] computes
    from the stored [estimated_elements] and
    [false_positive_probability]. *)
Definition derived_ok (log : float -> float) (bf : BloomFilter) : Prop :=
  calculate_optimal_hashes log bf = Some bf.

(** The fields hold values of their C types. *)
Record typed_filter (bf : BloomFilter) : Prop := mk_typed_filter {
  typed_bytes : Forall (fun b => 0 <= b < 256) (bloom bf);
  typed_estimated : 0 <= estimated_elements bf <= UINT64_MAX;
  typed_added : 0 <= elements_added bf <= UINT64_MAX;
  typed_probability : 0 <= false_positive_probability bf < 2 ^ 32
}.

(** ** Instances used in examples *)

(** The neighbours of [c] at most [n] steps away in binary64. *)
Fixpoint ulps_up (n : nat) (c : float) : list float :=
  match n with
  | O => []
  | S n' => next_up c :: ulps_up n' (next_up c)
  end.

Fixpoint ulps_down (n : nat) (c : float) : list float :=
  match n with
  | O => []
  | S n' => next_down c :: ulps_down n' (next_down c)
  end.

Definition ulp_ball (n : nat) (c : float) : list float :=
  c :: ulps_up n c ++ ulps_down n c.

(** [log x] is within [n] units in the last place of [c]. *)
Definition log_near (n : nat) (log : float -> float) (x c : float) : Prop :=
  In (log x) (ulp_ball n c).

(** The natural logarithms, rounded to binary64, of 2 and of the
    [float] values of 0.01 and 0.9. *)
Definition LN_2 : float := 0x1.62e42fefa39efp-1%float.
Definition LN_1_PERCENT : float := (-0x1.26bb1bd355516p+2)%float.
Definition LN_90_PERCENT : float := (-0x1.af8e892d15de8p-4)%float.

(** The [float] values of 0.01 and 0.9, and a quiet NaN. *)
Definition ONE_PERCENT : Z := 0x3c23d70a.
Definition NINETY_PERCENT : Z := 0x3f666666.
Definition FLOAT_NAN : Z := 0x7fc00000.

(** A logarithm by the series of the inverse hyperbolic tangent, to
    have a concrete libm. *)
Fixpoint atanh_series (n : nat) (k : Z) (s2 : float) : float :=
  match n with
  | O => 0%float
  | S n' => (1 / float_of_Z k + s2 * atanh_series n' (k + 2) s2)%float
  end.

Definition log_series (x : float) : float :=
  let (m, e) := Z.frexp x in
  let (m, e) :=
    if (m <? 0x1.6a09e667f3bcdp-1)%float then ((m * 2)%float, e - 1)
    else (m, e) in
  let s := ((m - 1) / (m + 1))%float in
  (float_of_Z e * LN_2 + 2 * s * atanh_series 24 1 (s * s))%float.

(** A stand-in digest of sixteen bytes. *)
Definition toy_digest (data : list Z) : list Z :=
  let s := fold_left (fun acc b => (acc * 31 + b + 7) mod 65521) data 1 in
  map (fun i => (s * (2 * i + 1) + i * i) mod 256)
    [0; 1; 2; 3; 4; 5; 6; 7; 8; 9; 10; 11; 12; 13; 14; 15].

(** A zeroed [BloomFilter] structure. *)
Definition blank : BloomFilter :=
  mkBloomFilter 0 0 0 0 [] 0 0 None 0 None 0.

(** The filter for 100 elements at one percent, as
    [bloom_filter_init_alt] leaves it. *)
Definition filter_100 : BloomFilter :=
  mkBloomFilter 100 ONE_PERCENT 7 959 (calloc 120) 120 0
    (Some (md5_hash_default toy_digest)) 0 None 0.

(** The filter for 100 elements at ninety percent. *)
Definition filter_loose : BloomFilter :=
  mkBloomFilter 100 NINETY_PERCENT 0 22 (calloc 3) 3 0
    (Some (md5_hash_default toy_digest)) 0 None 0.

(** The same filter over a fresh file, as
    [bloom_filter_init_on_disk_alt] leaves it: the region is the 120
    bytes of the bit array and the 20 bytes of the trailer. *)
Definition filter_mapped : BloomFilter :=
  mkBloomFilter 100 ONE_PERCENT 7 959
    (calloc 120 ++ le_bytes 8 100 ++ le_bytes 8 0 ++ le_bytes 4 ONE_PERCENT)
    120 0 (Some (md5_hash_default toy_digest)) 1 (Some "filter.blm"%string)
    140.

(** [filter_100] after the insert of a first key. *)
Definition hello_bytes : list Z :=
  Eval vm_compute in
    match bloom_filter_add_string filter_100 "hello" with
    | Some (_, bf) => bloom bf
    | None => []
    end.

Definition filter_hello : BloomFilter :=
  with_elements_added 1 (with_bloom hello_bytes filter_100).

(** A short history after that insert, and the filter it leaves. *)
Definition history : list operation :=
  [add_string "world"; check_string "absent"; add_string "hello"].

Definition history_bytes : list Z :=
  Eval vm_compute in
    match run history filter_hello with
    | Some bf => bloom bf
    | None => []
    end.

Definition filter_history : BloomFilter :=
  with_elements_added 3 (with_bloom history_bytes filter_100).

Definition triple_eqb (a b : Z * Z * Z) : bool :=
  (a.1.1 =? b.1.1) && (a.1.2 =? b.1.2) && (a.2 =? b.2).

(** Whether every pair of answers of [log] taken from two
    neighbourhoods leads [optimal_hashes] to the triple [r]. *)
Definition derives (n : Z) (ps twos : list float) (r : Z * Z * Z) : bool :=
  forallb (fun log_p =>
    forallb (fun log_2 =>
      match optimal_hashes log_p log_2 n with
      | Some t => triple_eqb t r
      | None => false
      end) twos) ps.

(** [filter_100] with as many inserts counted as 7 hash rounds need to
    take the product past [INT_MAX]. *)
Definition filter_worn : BloomFilter :=
  with_elements_added 306783379 filter_100.

(** A character that is a hexadecimal digit and none of those
    [beyond_digits] looks for. *)
Definition digit_char (c : ascii) : Prop :=
  exists d, 0 <= d < 16 /\ c = hex_char d.

(** ** The bit positions of a key *)

(** The positions the first [k] hashes of [hashes] address in an array
    of [m] bits. *)
Definition positions (m : Z) (hashes : list Z) (k : nat) : list Z :=
  map (fun h => h mod m) (take k hashes).

(** The positions [bloom_filter_add_string] sets and
    [bloom_filter_check_string] tests for the key [str]. *)
Definition key_positions (bf : BloomFilter) (str : string) : list Z :=
  match hash_function bf with
  | Some hf =>
      positions (number_bits bf) (hf (to_int (number_hashes bf)) str)
        (Z.to_nat (number_hashes bf))
  | None => []
  end.

(** The operations of a history that take a key, not an array of
    hashes the caller built. *)
Definition by_key (op : operation) : bool :=
  match op with
  | add_string_alt _ _ | check_string_alt _ _ => false
  | _ => true
  end.

(** ** The file image of a filter *)

(** The bytes of the binary layout: the bit array, then
    [estimated_elements], [elements_added] and
    [false_positive_probability] as [write_to_file] sends them. *)
Definition file_image (bf : BloomFilter) : list Z :=
  take (Z.to_nat (bloom_length bf)) (bloom bf)
  ++ le_bytes 8 (estimated_elements bf)
  ++ le_bytes 8 (elements_added bf)
  ++ le_bytes 4 (false_positive_probability bf).

(** The region of a mapped filter is the file image of its fields:
    what the file holds is what the structure says. *)
Definition persisted (bf : BloomFilter) : Prop :=
  bloom bf = file_image bf.

(** [filter_100] after the insert of a second key, alone and after the
    first. *)
Definition world_bytes : list Z :=
  Eval vm_compute in
    match bloom_filter_add_string filter_100 "world" with
    | Some (_, bf) => bloom bf
    | None => []
    end.

Definition filter_world : BloomFilter :=
  with_elements_added 1 (with_bloom world_bytes filter_100).

Definition filter_pair : BloomFilter :=
  with_elements_added 2 (with_bloom history_bytes filter_100).

(** [filter_mapped] after the insert of a first key. *)
Definition mapped_hello_bytes : list Z :=
  Eval vm_compute in
    match bloom_filter_add_string filter_mapped "hello" with
    | Some (_, bf) => bloom bf
    | None => []
    end.

Definition filter_mapped_hello : BloomFilter :=
  with_elements_added 1 (with_bloom mapped_hello_bytes filter_mapped).

(** * Properties *)

(** ** Bits *)

Lemma land_bit_zero (b r : Z) :
  0 <= r -> (Z.land b (Z.shiftl 1 r) =? 0) = negb (Z.testbit b r).
Proof.
  intros Hr. rewrite Z.shiftl_1_l.
  destruct (Z.testbit b r) eqn:Hb; simpl.
  - apply Z.eqb_neq. intros H0.
    assert (Ht : Z.testbit (Z.land b (2 ^ r)) r = true).
    { rewrite Z.land_spec, Hb, Z.pow2_bits_true by lia. reflexivity. }
    rewrite H0, Z.bits_0 in Ht. discriminate.
  - apply Z.eqb_eq, Z.bits_inj'. intros i Hi.
    rewrite Z.land_spec, Z.bits_0, Z.pow2_bits_eqb by lia.
    destruct (Z.eqb_spec r i) as [->|]; [rewrite Hb|]; auto using andb_false_r.
Qed.

Lemma testbit_set (b r i : Z) :
  0 <= r -> 0 <= i < 8 ->
  Z.testbit (u8 (Z.lor b (Z.shiftl 1 r))) i = Z.testbit b i || (r =? i).
Proof.
  intros Hr Hi. unfold u8.
  rewrite Z.mod_pow2_bits_low, Z.lor_spec, Z.shiftl_1_l, Z.pow2_bits_eqb
    by lia.
  reflexivity.
Qed.

Lemma set_bit_length (A A' : list Z) (k : Z) :
  set_bit A k = Some A' -> length A' = length A.
Proof.
  unfold set_bit. intros H.
  destruct (A !! Z.to_nat (k / 8)); simplify_eq/=.
  apply length_insert.
Qed.

Lemma set_bit_defined (A : list Z) (k : Z) :
  (Z.to_nat (k / 8) < length A)%nat -> is_Some (set_bit A k).
Proof.
  intros Hk. unfold set_bit.
  destruct (lookup_lt_is_Some_2 A _ Hk) as [b ->]. simpl. eauto.
Qed.

Lemma set_bit_on (A A' : list Z) (k : Z) :
  0 <= k -> set_bit A k = Some A' -> bit_on A' k.
Proof.
  intros Hk H. unfold set_bit in H.
  destruct (A !! Z.to_nat (k / 8)) as [b|] eqn:Hb; simplify_eq/=.
  exists (u8 (Z.lor b (Z.shiftl 1 (k mod 8)))). split.
  - apply list_lookup_insert_eq. eapply lookup_lt_Some, Hb.
  - assert (0 <= k mod 8 < 8) by (apply Z.mod_pos_bound; lia).
    rewrite testbit_set, Z.eqb_refl by lia. apply orb_true_r.
Qed.

Lemma set_bit_keeps (A A' : list Z) (k j : Z) :
  0 <= k -> set_bit A k = Some A' -> bit_on A j -> bit_on A' j.
Proof.
  intros Hk H (c & Hc & Hbit). unfold set_bit in H.
  destruct (A !! Z.to_nat (k / 8)) as [b|] eqn:Hb; simplify_eq/=.
  destruct (decide (Z.to_nat (k / 8) = Z.to_nat (j / 8))) as [Heq|Hne].
  - rewrite Heq in Hb. rewrite Hb in Hc. simplify_eq.
    exists (u8 (Z.lor c (Z.shiftl 1 (k mod 8)))). split.
    + rewrite Heq. apply list_lookup_insert_eq. eapply lookup_lt_Some, Hb.
    + assert (0 <= k mod 8 < 8) by (apply Z.mod_pos_bound; lia).
      destruct (Z_lt_le_dec (j mod 8) 0) as [Hneg|Hpos].
      { rewrite Z.testbit_neg_r in Hbit by lia. discriminate. }
      assert (j mod 8 < 8).
      { destruct (Z_lt_le_dec (j mod 8) 8); [lia|].
        pose proof (Z.mod_pos_bound j 8). lia. }
      rewrite testbit_set, Hbit by lia. reflexivity.
  - exists c. split; [|exact Hbit].
    rewrite list_lookup_insert_ne by exact Hne. exact Hc.
Qed.

Lemma check_bit_on (A : list Z) (k : Z) :
  0 <= k -> bit_on A k ->
  exists c, check_bit A k = Some c /\ (c =? 0) = false.
Proof.
  intros Hk (b & Hb & Hbit). unfold check_bit. rewrite Hb. simpl.
  eexists. split; [reflexivity|].
  rewrite land_bit_zero, Hbit; [reflexivity|].
  apply Z.mod_pos_bound. lia.
Qed.

Lemma check_bit_off (A : list Z) (k : Z) :
  0 <= k -> A !! Z.to_nat (k / 8) = Some 0 -> check_bit A k = Some 0.
Proof.
  intros Hk Hb. unfold check_bit. rewrite Hb. simpl.
  rewrite Z.land_0_l. reflexivity.
Qed.

(** ** The loops of insert and test *)

Lemma umod_pos (h m : Z) : 0 < m -> umod h m = Some (h mod m).
Proof. intros Hm. unfold umod. destruct (Z.eqb_spec m 0); [lia|done]. Qed.

Lemma add_loop_length (m : Z) (hs : list Z) (n i : nat) (A A' : list Z) :
  add_loop m hs i n A = Some A' -> length A' = length A.
Proof.
  revert i A. induction n as [|n IH]; intros i A H; simplify_eq/=; [done|].
  destruct (hs !! i) as [h|]; simplify_eq/=.
  destruct (umod h m) as [k|]; simplify_eq/=.
  destruct (set_bit A k) as [A1|] eqn:H1; simplify_eq/=.
  rewrite (IH _ _ H). eapply set_bit_length, H1.
Qed.

Lemma add_loop_keeps (m : Z) (hs : list Z) (n i : nat) (A A' : list Z) j :
  0 < m -> add_loop m hs i n A = Some A' -> bit_on A j -> bit_on A' j.
Proof.
  intros Hm. revert i A.
  induction n as [|n IH]; intros i A H Hj; simplify_eq/=; [done|].
  destruct (hs !! i) as [h|]; simplify_eq/=.
  rewrite umod_pos in H by done. simpl in H.
  destruct (set_bit A (h mod m)) as [A1|] eqn:H1; simplify_eq/=.
  eapply IH; [exact H|].
  eapply set_bit_keeps; [|exact H1|exact Hj].
  apply Z.mod_pos_bound, Hm.
Qed.

Lemma add_loop_sets (m : Z) (hs : list Z) (n i : nat) (A A' : list Z) :
  0 < m -> add_loop m hs i n A = Some A' ->
  forall i' h, (i <= i' < i + n)%nat -> hs !! i' = Some h ->
  bit_on A' (h mod m).
Proof.
  intros Hm. revert i A.
  induction n as [|n IH]; intros i A H i' h Hi Hh; [lia|].
  simpl in H.
  destruct (hs !! i) as [h0|] eqn:H0; simplify_eq/=.
  rewrite umod_pos in H by done. simpl in H.
  destruct (set_bit A (h0 mod m)) as [A1|] eqn:H1; simplify_eq/=.
  destruct (decide (i' = i)) as [->|Hne].
  - rewrite H0 in Hh. simplify_eq.
    eapply add_loop_keeps; [exact Hm|exact H|].
    eapply set_bit_on; [|exact H1]. apply Z.mod_pos_bound, Hm.
  - eapply IH; [exact H| |exact Hh]. lia.
Qed.

Lemma byte_index_in_range (h m : Z) (len : nat) :
  0 < m -> m <= 8 * Z.of_nat len -> (Z.to_nat (h mod m / 8) < len)%nat.
Proof.
  intros Hm Hlen.
  pose proof (Z.mod_pos_bound h m Hm) as Hb.
  assert (h mod m / 8 < Z.of_nat len).
  { apply Z.div_lt_upper_bound; lia. }
  assert (0 <= h mod m / 8) by (apply Z.div_pos; lia).
  lia.
Qed.

Lemma add_loop_defined (m : Z) (hs : list Z) (n i : nat) (A : list Z) :
  0 < m -> m <= 8 * Z.of_nat (length A) -> (i + n <= length hs)%nat ->
  is_Some (add_loop m hs i n A).
Proof.
  intros Hm. revert i A.
  induction n as [|n IH]; intros i A HA Hn; simpl; [eauto|].
  destruct (lookup_lt_is_Some_2 hs i) as [h ->]; [lia|]. simpl.
  rewrite umod_pos by done. simpl.
  destruct (set_bit_defined A (h mod m)) as [A1 H1].
  { apply byte_index_in_range; done. }
  rewrite H1. simpl. apply IH; [|lia].
  rewrite (set_bit_length _ _ _ H1). exact HA.
Qed.

Lemma check_loop_on (m : Z) (hs : list Z) (n i : nat) (A : list Z) :
  0 < m ->
  (forall i', (i <= i' < i + n)%nat ->
     exists h, hs !! i' = Some h /\ bit_on A (h mod m)) ->
  check_loop m hs i n A = Some BLOOM_SUCCESS.
Proof.
  intros Hm. revert i.
  induction n as [|n IH]; intros i Hon; simpl; [done|].
  destruct (Hon i) as (h & -> & Hbit); [lia|]. simpl.
  rewrite umod_pos by done. simpl.
  destruct (check_bit_on A (h mod m)) as (c & -> & Hc); [|exact Hbit|].
  { apply Z.mod_pos_bound, Hm. }
  simpl. rewrite Hc. apply IH. intros i' Hi'. apply Hon. lia.
Qed.

Lemma check_loop_zero_rounds (m : Z) (hs : list Z) (i : nat) (A : list Z) :
  check_loop m hs i 0 A = Some BLOOM_SUCCESS.
Proof. reflexivity. Qed.

(** ** Stores into the region *)

Lemma write_at_spec (src : list Z) (i : nat) (A A' : list Z) :
  write_at i src A = Some A' ->
  length A' = length A /\ forall j, (j < i)%nat -> A' !! j = A !! j.
Proof.
  revert i A. induction src as [|b src IH]; intros i A H; simplify_eq/=.
  { done. }
  case_decide; [|done].
  destruct (IH _ _ H) as [Hlen Hlow]. split.
  - rewrite Hlen. apply length_insert.
  - intros j Hj. rewrite Hlow by lia. apply list_lookup_insert_ne. lia.
Qed.

Lemma write_at_defined (src : list Z) (i : nat) (A : list Z) :
  (i + length src <= length A)%nat -> is_Some (write_at i src A).
Proof.
  revert i A. induction src as [|b src IH]; intros i A H; simpl in *.
  { eauto. }
  case_decide; [|lia]. apply IH. rewrite length_insert. lia.
Qed.

Lemma le_bytes_length (w : nat) (z : Z) : length (le_bytes w z) = w.
Proof. revert z. induction w; intros; simpl; [done|]. by rewrite IHw. Qed.

Lemma write_counter_spec (e : Z) (A A' : list Z) :
  write_counter e A = Some A' ->
  length A' = length A /\
  forall j, (j + 12 < length A)%nat -> A' !! j = A !! j.
Proof.
  unfold write_counter. intros H. case_decide; [|done].
  destruct (write_at_spec _ _ _ _ H) as [Hlen Hlow].
  split; [done|]. intros j Hj. apply Hlow. lia.
Qed.

Lemma write_counter_defined (e : Z) (A : list Z) :
  (12 <= length A)%nat -> is_Some (write_counter e A).
Proof.
  intros H. unfold write_counter. case_decide; [|lia].
  apply write_at_defined. rewrite le_bytes_length. lia.
Qed.

Lemma clear_loop_spec (n i : nat) (A A' : list Z) :
  clear_loop i n A = Some A' ->
  length A' = length A /\
  (forall j, (i <= j < i + n)%nat -> A' !! j = Some 0) /\
  (forall j, (j < i \/ i + n <= j)%nat -> A' !! j = A !! j).
Proof.
  revert i A. induction n as [|n IH]; intros i A H; simplify_eq/=.
  { split; [done|]. split; [intros; lia|done]. }
  case_decide as Hi; [|done].
  destruct (IH _ _ H) as (Hlen & Hzero & Hrest).
  rewrite length_insert in Hlen. split; [done|]. split.
  - intros j Hj. destruct (decide (j = i)) as [->|Hne].
    + rewrite Hrest by lia. by apply list_lookup_insert_eq.
    + apply Hzero. lia.
  - intros j Hj. rewrite Hrest by lia. apply list_lookup_insert_ne. lia.
Qed.

Lemma clear_loop_defined (n i : nat) (A : list Z) :
  (i + n <= length A)%nat -> is_Some (clear_loop i n A).
Proof.
  revert i A. induction n as [|n IH]; intros i A H; simpl; [eauto|].
  case_decide; [|lia]. apply IH. rewrite length_insert. lia.
Qed.

(** ** Insert keeps a filter valid and its bits set *)

Lemma bit_index_below (j m len : Z) :
  0 <= j < m -> m <= 8 * len -> 0 <= j / 8 < len.
Proof.
  intros Hj Hm. split; [apply Z.div_pos; lia|].
  apply Z.div_lt_upper_bound; lia.
Qed.

Lemma write_counter_keeps (bf : BloomFilter) (e : Z) (A A' : list Z) j :
  number_bits bf <= 8 * bloom_length bf ->
  Z.of_nat (length A) = bloom_length bf + 20 ->
  write_counter e A = Some A' ->
  0 <= j < number_bits bf -> bit_on A j -> bit_on A' j.
Proof.
  intros Hcover Hlen Hw Hj (b & Hb & Hbit).
  destruct (write_counter_spec _ _ _ Hw) as [_ Hlow].
  exists b. split; [|exact Hbit]. rewrite Hlow; [exact Hb|].
  pose proof (bit_index_below _ _ _ Hj Hcover). lia.
Qed.

Lemma add_string_alt_valid (bf bf' : BloomFilter) hs n st :
  valid_filter bf ->
  bloom_filter_add_string_alt bf hs n = Some (st, bf') ->
  valid_filter bf' /\ extends bf bf'.
Proof.
  intros [Hm Hcover Hk Hreg Hfam] H.
  unfold bloom_filter_add_string_alt in H.
  destruct (n <? number_hashes bf).
  { simplify_eq. split; [done|]. by repeat split. }
  destruct (add_loop _ _ _ _ _) as [A|] eqn:HA; simplify_eq/=.
  pose proof (add_loop_length _ _ _ _ _ _ HA) as HlenA.
  unfold region_ok in Hreg.
  destruct (__is_on_disk bf =? 1) eqn:Hdisk.
  - destruct (write_counter _ A) as [A'|] eqn:HA'; simplify_eq/=.
    destruct (write_counter_spec _ _ _ HA') as [Hlen' _].
    split.
    + split; simpl; try done. unfold region_ok. simpl.
      rewrite Hdisk. congruence.
    + repeat split; simpl; try done. intros j Hj Hon.
      eapply write_counter_keeps; [exact Hcover| |exact HA'|exact Hj|].
      * rewrite HlenA. exact Hreg.
      * eapply add_loop_keeps; [exact Hm|exact HA|exact Hon].
  - simplify_eq/=. split.
    + split; simpl; try done. unfold region_ok. simpl.
      rewrite Hdisk. congruence.
    + repeat split; simpl; try done. intros j Hj Hon.
      eapply add_loop_keeps; [exact Hm|exact HA|exact Hon].
Qed.

Lemma add_string_alt_sets (bf bf' : BloomFilter) hs n :
  valid_filter bf ->
  bloom_filter_add_string_alt bf hs n = Some (BLOOM_SUCCESS, bf') ->
  forall i h, (i < Z.to_nat (number_hashes bf))%nat -> hs !! i = Some h ->
  bit_on (bloom bf') (h mod number_bits bf).
Proof.
  intros [Hm Hcover Hk Hreg Hfam] H i h Hi Hh.
  unfold bloom_filter_add_string_alt in H.
  destruct (n <? number_hashes bf); [simplify_eq|].
  destruct (add_loop _ _ _ _ _) as [A|] eqn:HA; simplify_eq/=.
  pose proof (add_loop_length _ _ _ _ _ _ HA) as HlenA.
  assert (Hon : bit_on A (h mod number_bits bf)).
  { eapply add_loop_sets; [exact Hm|exact HA| |exact Hh]. lia. }
  unfold region_ok in Hreg.
  destruct (__is_on_disk bf =? 1) eqn:Hdisk.
  - destruct (write_counter _ A) as [A'|] eqn:HA'; simplify_eq/=.
    eapply write_counter_keeps; [exact Hcover| |exact HA'| |exact Hon].
    + rewrite HlenA. exact Hreg.
    + apply Z.mod_pos_bound, Hm.
  - simplify_eq/=. exact Hon.
Qed.

Lemma add_string_alt_defined (bf : BloomFilter) hs n :
  valid_filter bf -> number_hashes bf <= n ->
  (Z.to_nat (number_hashes bf) <= length hs)%nat ->
  exists bf', bloom_filter_add_string_alt bf hs n = Some (BLOOM_SUCCESS, bf').
Proof.
  intros [Hm Hcover Hk Hreg Hfam] Hn Hhs.
  unfold bloom_filter_add_string_alt.
  destruct (Z.ltb_spec n (number_hashes bf)); [lia|].
  unfold region_ok in Hreg.
  destruct (add_loop_defined (number_bits bf) hs
              (Z.to_nat (number_hashes bf)) 0 (bloom bf)) as [A HA];
    [done| |lia|].
  { destruct (__is_on_disk bf =? 1); lia. }
  rewrite HA. simpl.
  pose proof (add_loop_length _ _ _ _ _ _ HA) as HlenA.
  destruct (__is_on_disk bf =? 1) eqn:Hdisk; [|eauto].
  destruct (write_counter_defined (u64 (elements_added bf + 1)) A)
    as [A' ->]; [|simpl; eauto].
  lia.
Qed.

Lemma to_int_small (k : Z) : 0 <= k <= INT_MAX -> to_int k = k.
Proof.
  unfold to_int, INT_MAX. intros Hk.
  rewrite Z.mod_small by lia. lia.
Qed.

Lemma extends_refl (bf : BloomFilter) : extends bf bf.
Proof. by repeat split. Qed.

Lemma extends_trans (a b c : BloomFilter) :
  extends a b -> extends b c -> extends a c.
Proof.
  intros (Hm & Hk & Hh & Hb) (Hm' & Hk' & Hh' & Hb').
  repeat split; try congruence.
  intros j Hj Hon. apply Hb'; [lia|]. by apply Hb.
Qed.

Lemma step_read_only (op : operation) (bf bf' : BloomFilter) :
  is_insert op = false -> step op bf = Some bf' -> bf' = bf.
Proof.
  destruct op; simpl; intros Hop H; try discriminate; simplify_eq/=.
  - destruct (bloom_filter_check_string bf str); by simplify_eq/=.
  - destruct (bloom_filter_check_string_alt bf hashes _); by simplify_eq/=.
  - done.
  - destruct (bloom_filter_export_hex_string bf); by simplify_eq/=.
  - done.
Qed.

Lemma step_valid (op : operation) (bf bf' : BloomFilter) :
  valid_filter bf -> step op bf = Some bf' ->
  valid_filter bf' /\ extends bf bf'.
Proof.
  intros Hv H. destruct (is_insert op) eqn:Hop.
  - destruct op; try discriminate; simpl in H.
    + unfold bloom_filter_add_string in H.
      destruct (bloom_filter_calculate_hashes bf str _) as [hs|];
        simplify_eq/=.
      destruct (bloom_filter_add_string_alt bf hs _) as [[st b]|] eqn:Ha;
        simplify_eq/=.
      eapply add_string_alt_valid; [exact Hv|exact Ha].
    + destruct (bloom_filter_add_string_alt bf hashes _) as [[st b]|] eqn:Ha;
        simplify_eq/=.
      eapply add_string_alt_valid; [exact Hv|exact Ha].
  - rewrite (step_read_only _ _ _ Hop H). split; [done|apply extends_refl].
Qed.

Lemma run_valid (ops : list operation) (bf bf' : BloomFilter) :
  valid_filter bf -> run ops bf = Some bf' ->
  valid_filter bf' /\ extends bf bf'.
Proof.
  revert bf. induction ops as [|op ops IH]; intros bf Hv H; simplify_eq/=.
  { split; [done|apply extends_refl]. }
  destruct (step op bf) as [bf1|] eqn:H1; simplify_eq/=.
  destruct (step_valid _ _ _ Hv H1) as [Hv1 He1].
  destruct (IH _ Hv1 H) as [Hv' He']. split; [done|].
  eapply extends_trans; [exact He1|exact He'].
Qed.

Lemma run_read_only (ops : list operation) (bf bf' : BloomFilter) :
  forallb (fun op => negb (is_insert op)) ops = true ->
  run ops bf = Some bf' -> bf' = bf.
Proof.
  revert bf. induction ops as [|op ops IH]; intros bf Hops H; simplify_eq/=.
  { done. }
  apply andb_prop in Hops as [Hop Hops].
  destruct (step op bf) as [bf1|] eqn:H1; simplify_eq/=.
  apply negb_true_iff in Hop.
  rewrite (step_read_only _ _ _ Hop H1) in H. by apply IH.
Qed.

(** ** The default hash family keeps the contract *)

Lemma md5_rounds_length (MD5 : list Z -> list Z) (n : nat) (data : list Z) :
  length (md5_rounds MD5 n data) = n.
Proof.
  revert data. induction n as [|n IH]; intros data; simpl; [done|].
  by rewrite IH.
Qed.

Lemma md5_hash_default_contract (MD5 : list Z -> list Z) :
  hash_contract (md5_hash_default MD5).
Proof. intros n str. apply md5_rounds_length. Qed.

Lemma filter_100_valid : valid_filter filter_100.
Proof.
  split; simpl; try (unfold INT_MAX; lia).
  - reflexivity.
  - eexists. split; [reflexivity|apply md5_hash_default_contract].
Qed.

Lemma filter_loose_valid : valid_filter filter_loose.
Proof.
  split; simpl; try (unfold INT_MAX; lia).
  - reflexivity.
  - eexists. split; [reflexivity|apply md5_hash_default_contract].
Qed.

(** ** No false negatives *)

(** C1: on a valid filter [bloom_filter_add_string bf x] succeeds, and
    after it every [bloom_filter_check_string] of [x] returns
    [BLOOM_SUCCESS], whatever inserts, tests and reports come in
    between ([bloom_filter_clear] is not among the operations of a
    history). *)
Theorem no_false_negatives (bf : BloomFilter) (x : string) :
  valid_filter bf ->
  (exists bf1, bloom_filter_add_string bf x = Some (BLOOM_SUCCESS, bf1)) /\
  (forall bf1 ops bf2,
     bloom_filter_add_string bf x = Some (BLOOM_SUCCESS, bf1) ->
     run ops bf1 = Some bf2 ->
     bloom_filter_check_string bf2 x = Some BLOOM_SUCCESS).
Proof.
  intros Hv.
  pose proof Hv as [Hm Hcover Hk Hreg (hf & Hhf & Hcontract)].
  assert (Hlen : length (hf (to_int (number_hashes bf)) x)
                 = Z.to_nat (number_hashes bf)).
  { rewrite Hcontract, to_int_small by done. reflexivity. }
  split.
  - unfold bloom_filter_add_string, bloom_filter_calculate_hashes.
    rewrite Hhf. simpl.
    apply add_string_alt_defined; [done|lia|lia].
  - intros bf1 ops bf2 Hadd Hrun.
    unfold bloom_filter_add_string, bloom_filter_calculate_hashes in Hadd.
    rewrite Hhf in Hadd. simpl in Hadd.
    destruct (add_string_alt_valid _ _ _ _ _ Hv Hadd) as [Hv1 He1].
    destruct (run_valid _ _ _ Hv1 Hrun) as [Hv2 He2].
    destruct (extends_trans _ _ _ He1 He2) as (Hm2 & Hk2 & Hh2 & Hbits).
    unfold bloom_filter_check_string, bloom_filter_calculate_hashes.
    rewrite Hh2, Hhf. simpl.
    unfold bloom_filter_check_string_alt.
    rewrite Z.ltb_irrefl, Hk2, Hm2.
    apply check_loop_on; [done|].
    intros i Hi.
    destruct (lookup_lt_is_Some_2 (hf (to_int (number_hashes bf)) x) i)
      as [h Hh]; [lia|].
    exists h. split; [exact Hh|].
    destruct He2 as (Hm12 & _ & _ & Hbits12).
    destruct He1 as (Hm1 & _).
    apply Hbits12.
    + rewrite Hm1. apply Z.mod_pos_bound, Hm.
    + eapply add_string_alt_sets; [exact Hv|exact Hadd| |exact Hh]. lia.
Qed.

Lemma add_hello :
  bloom_filter_add_string filter_100 "hello"
    = Some (BLOOM_SUCCESS, filter_hello).
Proof. reflexivity. Qed.

Lemma run_history : run history filter_hello = Some filter_history.
Proof. reflexivity. Qed.

Lemma no_false_negatives_witness :
  bloom_filter_add_string filter_100 "hello"
    = Some (BLOOM_SUCCESS, filter_hello) /\
  run history filter_hello = Some filter_history /\
  bloom_filter_check_string filter_history "hello" = Some BLOOM_SUCCESS.
Proof.
  split; [exact add_hello|].
  split; [exact run_history|].
  apply (proj2 (no_false_negatives filter_100 "hello" filter_100_valid)
           filter_hello history).
  - exact add_hello.
  - exact run_history.
Defined.

(** ** Too few hashes *)

(** C4: with fewer hashes passed than the filter's [number_hashes], the
    insert and the test on given hashes return [BLOOM_FAILURE], and the
    filter the insert leaves is the one it was given: no byte of the
    array and no counter has changed. *)
Theorem insufficient_hashes_rejected (bf : BloomFilter) (hashes : list Z)
    (number_hashes_passed : Z) :
  number_hashes_passed < number_hashes bf ->
  bloom_filter_add_string_alt bf hashes number_hashes_passed
    = Some (BLOOM_FAILURE, bf) /\
  bloom_filter_check_string_alt bf hashes number_hashes_passed
    = Some BLOOM_FAILURE.
Proof.
  intros Hn.
  unfold bloom_filter_add_string_alt, bloom_filter_check_string_alt.
  destruct (Z.ltb_spec number_hashes_passed (number_hashes bf)); [|lia].
  done.
Qed.

Lemma insufficient_hashes_rejected_witness :
  bloom_filter_add_string_alt filter_100 [11; 22; 33] 3
    = Some (BLOOM_FAILURE, filter_100) /\
  bloom_filter_check_string_alt filter_100 [11; 22; 33] 3
    = Some BLOOM_FAILURE.
Proof.
  apply (insufficient_hashes_rejected filter_100 [11; 22; 33] 3).
  simpl. lia.
Defined.

(** ** Clear *)

Lemma clear_spec (bf : BloomFilter) :
  region_ok bf -> 0 <= bloom_length bf ->
  exists bf',
    bloom_filter_clear bf = Some (BLOOM_SUCCESS, bf') /\
    elements_added bf' = 0 /\
    (forall i, (i < Z.to_nat (bloom_length bf))%nat ->
       bloom bf' !! i = Some 0) /\
    length (bloom bf') = length (bloom bf) /\
    bf' = with_elements_added 0 (with_bloom (bloom bf') bf).
Proof.
  intros Hreg Hlen. unfold region_ok in Hreg. unfold bloom_filter_clear.
  destruct (clear_loop_defined (Z.to_nat (bloom_length bf)) 0 (bloom bf))
    as [A HA].
  { destruct (__is_on_disk bf =? 1); lia. }
  rewrite HA. simpl. eexists. split; [reflexivity|].
  destruct (clear_loop_spec _ _ _ _ HA) as (HlenA & Hzero & _).
  simpl. repeat split; try done.
  intros i Hi. apply Hzero. lia.
Qed.

(** C6: [bloom_filter_clear] succeeds on a valid filter and leaves
    [elements_added] at 0 and every byte of the bit array at 0; with
    at least one hash round every [bloom_filter_check_string] then
    returns [BLOOM_FAILURE], for every key, as long as no insert
    follows. *)
Theorem clear_resets (bf : BloomFilter) :
  valid_filter bf ->
  exists bf',
    bloom_filter_clear bf = Some (BLOOM_SUCCESS, bf') /\
    elements_added bf' = 0 /\
    bloom_length bf' = bloom_length bf /\
    (forall i, (i < Z.to_nat (bloom_length bf'))%nat ->
       bloom bf' !! i = Some 0) /\
    (1 <= number_hashes bf ->
     forall ops bf'' x,
       forallb (fun op => negb (is_insert op)) ops = true ->
       run ops bf' = Some bf'' ->
       bloom_filter_check_string bf'' x = Some BLOOM_FAILURE).
Proof.
  intros [Hm Hcover Hk Hreg (hf & Hhf & Hcontract)].
  destruct (clear_spec bf Hreg) as (bf' & Hclear & Hea & Hzero & Hlen & Hbf');
    [lia|].
  exists bf'. split; [exact Hclear|]. split; [exact Hea|].
  assert (Hbl : bloom_length bf' = bloom_length bf) by (by rewrite Hbf').
  split; [exact Hbl|]. split; [by rewrite Hbl|].
  intros Hk1 ops bf'' x Hops Hrun.
  rewrite (run_read_only _ _ _ Hops Hrun).
  unfold bloom_filter_check_string, bloom_filter_calculate_hashes.
  replace (hash_function bf') with (Some hf) by (by rewrite Hbf').
  replace (number_hashes bf') with (number_hashes bf) by (by rewrite Hbf').
  simpl. unfold bloom_filter_check_string_alt.
  replace (number_hashes bf') with (number_hashes bf) by (by rewrite Hbf').
  replace (number_bits bf') with (number_bits bf) by (by rewrite Hbf').
  rewrite Z.ltb_irrefl.
  destruct (Z.to_nat (number_hashes bf)) as [|k] eqn:Hkn; [lia|].
  simpl.
  destruct (lookup_lt_is_Some_2 (hf (to_int (number_hashes bf)) x) 0)
    as [h ->].
  { rewrite Hcontract, to_int_small by done. lia. }
  simpl. rewrite umod_pos by done. simpl.
  rewrite check_bit_off; [done|apply Z.mod_pos_bound, Hm|].
  apply Hzero.
  pose proof (Z.mod_pos_bound h _ Hm) as Hh.
  pose proof (bit_index_below _ _ _ Hh Hcover). lia.
Qed.

Lemma filter_hello_valid : valid_filter filter_hello.
Proof.
  refine (proj1 (add_string_alt_valid filter_100 filter_hello
                   (md5_hash_default toy_digest 7 "hello") 7 BLOOM_SUCCESS
                   filter_100_valid _)).
  exact add_hello.
Qed.

Lemma clear_resets_witness :
  exists bf',
    bloom_filter_check_string filter_hello "hello" = Some BLOOM_SUCCESS /\
    bloom_filter_clear filter_hello = Some (BLOOM_SUCCESS, bf') /\
    elements_added bf' = 0 /\
    bloom_filter_check_string bf' "hello" = Some BLOOM_FAILURE.
Proof.
  destruct (clear_resets filter_hello filter_hello_valid)
    as (bf' & Hc & He & _ & _ & Hcheck).
  exists bf'. split; [reflexivity|].
  split; [exact Hc|]. split; [exact He|].
  refine (Hcheck _ [] bf' "hello" eq_refl eq_refl).
  simpl. lia.
Defined.

(** ** A filter without hash rounds *)

(** C10: when [number_hashes] is 0 the test loop runs no round, and
    both membership tests return [BLOOM_SUCCESS] for every key and
    every array of hashes, whatever the bit array holds. *)
Theorem zero_hashes_always_member (bf : BloomFilter) :
  number_hashes bf = 0 ->
  (forall hashes number_hashes_passed,
     0 <= number_hashes_passed ->
     bloom_filter_check_string_alt bf hashes number_hashes_passed
       = Some BLOOM_SUCCESS) /\
  (forall x,
     is_Some (hash_function bf) ->
     bloom_filter_check_string bf x = Some BLOOM_SUCCESS).
Proof.
  intros Hk. split.
  - intros hashes n Hn. unfold bloom_filter_check_string_alt. rewrite Hk.
    destruct (Z.ltb_spec n 0); [lia|]. reflexivity.
  - intros x [hf Hhf].
    unfold bloom_filter_check_string, bloom_filter_calculate_hashes.
    rewrite Hhf. simpl. unfold bloom_filter_check_string_alt.
    rewrite Hk. reflexivity.
Qed.

Lemma zero_hashes_always_member_witness :
  bloom filter_loose = [0; 0; 0] /\
  bloom_filter_check_string_alt filter_loose [] 0 = Some BLOOM_SUCCESS /\
  bloom_filter_check_string filter_loose "never inserted"
    = Some BLOOM_SUCCESS.
Proof.
  split; [reflexivity|].
  destruct (zero_hashes_always_member filter_loose eq_refl) as [Halt Hstr].
  split.
  - apply Halt. lia.
  - apply Hstr. simpl. eauto.
Defined.

(** ** The insert counter *)

Lemma add_string_alt_counter (bf bf' : BloomFilter) hs n st :
  bloom_filter_add_string_alt bf hs n = Some (st, bf') ->
  (st = BLOOM_FAILURE /\ bf' = bf) \/
  (st = BLOOM_SUCCESS /\ elements_added bf' = u64 (elements_added bf + 1)).
Proof.
  unfold bloom_filter_add_string_alt. intros H.
  destruct (n <? number_hashes bf); [left; by simplify_eq|right].
  destruct (add_loop _ _ _ _ _) as [A|]; simplify_eq/=.
  destruct (__is_on_disk bf =? 1); simplify_eq/=; [|done].
  destruct (write_counter _ A); by simplify_eq/=.
Qed.

Lemma step_counter (op : operation) (bf bf' : BloomFilter) :
  step op bf = Some bf' ->
  elements_added bf' = elements_added bf \/
  (is_insert op = true /\
   elements_added bf' = u64 (elements_added bf + 1)).
Proof.
  intros H. destruct (is_insert op) eqn:Hop.
  - destruct op; try discriminate; simpl in H.
    + unfold bloom_filter_add_string in H.
      destruct (bloom_filter_calculate_hashes bf str _) as [hs|];
        simplify_eq/=.
      destruct (bloom_filter_add_string_alt bf hs _) as [[st b]|] eqn:Ha;
        simplify_eq/=.
      destruct (add_string_alt_counter _ _ _ _ _ Ha) as [[_ ->]|[_ He]];
        auto.
    + destruct (bloom_filter_add_string_alt bf hashes _) as [[st b]|] eqn:Ha;
        simplify_eq/=.
      destruct (add_string_alt_counter _ _ _ _ _ Ha) as [[_ ->]|[_ He]];
        auto.
  - left. by rewrite (step_read_only _ _ _ Hop H).
Qed.

Lemma run_counter (ops : list operation) (bf bf' : BloomFilter) :
  run ops bf = Some bf' ->
  0 <= elements_added bf ->
  elements_added bf + Z.of_nat (length ops) <= UINT64_MAX ->
  elements_added bf <= elements_added bf'
    <= elements_added bf + Z.of_nat (length ops).
Proof.
  revert bf. induction ops as [|op ops IH]; intros bf H H0 Hmax.
  { simpl in *. simplify_eq. lia. }
  simpl in H. destruct (step op bf) as [bf1|] eqn:H1; simplify_eq/=.
  unfold UINT64_MAX in *.
  assert (Hbf1 : elements_added bf <= elements_added bf1
                   <= elements_added bf + 1).
  { destruct (step_counter _ _ _ H1) as [->|[_ ->]]; [lia|].
    unfold u64. rewrite Z.mod_small; lia. }
  specialize (IH bf1 H). lia.
Qed.

(** C7, as the code has it: along a history of inserts, tests and
    reports [elements_added] never decreases while it stays within
    [uint64_t] (each successful insert adds one, a rejected insert and
    every test or report leaves it as it is); [bloom_filter_clear] and
    [bloom_filter_destroy] set it back to 0. *)
Theorem counter_history :
  (forall ops bf bf',
     run ops bf = Some bf' ->
     0 <= elements_added bf ->
     elements_added bf + Z.of_nat (length ops) <= UINT64_MAX ->
     elements_added bf <= elements_added bf' /\
     (forallb (fun op => negb (is_insert op)) ops = true ->
      elements_added bf' = elements_added bf)) /\
  (forall bf hashes n bf',
     bloom_filter_add_string_alt bf hashes n = Some (BLOOM_SUCCESS, bf') ->
     elements_added bf' = u64 (elements_added bf + 1)) /\
  (forall bf st bf',
     bloom_filter_clear bf = Some (st, bf') -> elements_added bf' = 0) /\
  (forall bf, elements_added (snd (bloom_filter_destroy bf)) = 0).
Proof.
  split; [|split; [|split]].
  - intros ops bf bf' Hrun H0 Hmax. split.
    + apply (run_counter _ _ _ Hrun H0 Hmax).
    + intros Hops. by rewrite (run_read_only _ _ _ Hops Hrun).
  - intros bf hashes n bf' H.
    destruct (add_string_alt_counter _ _ _ _ _ H) as [[? _]|[_ He]];
      [discriminate|done].
  - intros bf st bf' H. unfold bloom_filter_clear in H.
    destruct (clear_loop _ _ _); by simplify_eq/=.
  - reflexivity.
Qed.

Lemma counter_history_witness :
  elements_added filter_hello <= elements_added filter_history.
Proof.
  apply (proj1 counter_history history filter_hello filter_history).
  - exact run_history.
  - apply Z.leb_le. reflexivity.
  - apply Z.leb_le. reflexivity.
Defined.

(** C7, as stated, fails at [filter_hello]: [bloom_filter_clear] is not
    an insert, and it takes the counter from 1 to 0. *)
Lemma counter_reset_by_clear :
  elements_added filter_hello = 1 /\
  exists bf',
    bloom_filter_clear filter_hello = Some (BLOOM_SUCCESS, bf') /\
    elements_added bf' = 0.
Proof.
  split; [reflexivity|].
  eexists. split; [reflexivity|reflexivity].
Qed.

(** ** Inserts without hash rounds *)

Lemma take_write_counter (e : Z) (A A' : list Z) (n : nat) :
  write_counter e A = Some A' -> (n + 12 <= length A)%nat ->
  take n A' = take n A.
Proof.
  intros Hw Hn. destruct (write_counter_spec _ _ _ Hw) as [Hlen Hlow].
  apply list_eq. intros i.
  destruct (decide (i < n)%nat) as [Hi|Hi].
  - rewrite !lookup_take_lt by done. apply Hlow. lia.
  - rewrite !lookup_take_ge by lia. done.
Qed.

Lemma add_without_rounds (bf : BloomFilter) (hashes : list Z) (n : Z) :
  number_hashes bf = 0 -> 0 <= n -> region_ok bf -> 0 <= bloom_length bf ->
  exists bf',
    bloom_filter_add_string_alt bf hashes n = Some (BLOOM_SUCCESS, bf') /\
    elements_added bf' = u64 (elements_added bf + 1) /\
    take (Z.to_nat (bloom_length bf)) (bloom bf')
      = take (Z.to_nat (bloom_length bf)) (bloom bf).
Proof.
  intros Hk Hn Hreg Hlen. unfold region_ok in Hreg.
  unfold bloom_filter_add_string_alt. rewrite Hk.
  destruct (Z.ltb_spec n 0); [lia|]. simpl.
  destruct (__is_on_disk bf =? 1) eqn:Hdisk; [|eauto].
  destruct (write_counter_defined (u64 (elements_added bf + 1)) (bloom bf))
    as [A' HA']; [lia|].
  rewrite HA'. simpl. eexists. split; [reflexivity|]. split; [done|].
  simpl. eapply take_write_counter; [exact HA'|lia].
Qed.

(** ** Parameter derivation *)

Lemma triple_eqb_eq (a b : Z * Z * Z) : triple_eqb a b = true -> a = b.
Proof.
  destruct a as [[a1 a2] a3], b as [[b1 b2] b3]. unfold triple_eqb. simpl.
  intros H. apply andb_prop in H as [H H3]. apply andb_prop in H as [H1 H2].
  apply Z.eqb_eq in H1, H2, H3. congruence.
Qed.

Lemma derives_sound (n : Z) (ps twos : list float) (r : Z * Z * Z)
    (log_p log_2 : float) :
  derives n ps twos r = true -> In log_p ps -> In log_2 twos ->
  optimal_hashes log_p log_2 n = Some r.
Proof.
  unfold derives. intros H Hp H2.
  rewrite forallb_forall in H. specialize (H _ Hp).
  rewrite forallb_forall in H. specialize (H _ H2).
  destruct (optimal_hashes log_p log_2 n) as [t|]; [|discriminate].
  by rewrite (triple_eqb_eq _ _ H).
Qed.

Lemma derives_one_percent :
  derives 100 (ulp_ball 4 LN_1_PERCENT) (ulp_ball 4 LN_2) (959, 7, 120)
  = true.
Proof. vm_compute. reflexivity. Qed.

Lemma derives_ninety_percent :
  derives 100 (ulp_ball 4 LN_90_PERCENT) (ulp_ball 4 LN_2) (22, 0, 3)
  = true.
Proof. vm_compute. reflexivity. Qed.

Lemma calculate_from_optimal (log : float -> float) (bf : BloomFilter)
    (m k num_pos : Z) :
  optimal_hashes (log (float_of_bits32 (false_positive_probability bf)))
    (log 2.0%float) (to_long (estimated_elements bf))
    = Some (m, k, num_pos) ->
  calculate_optimal_hashes log bf = Some (with_parameters k m num_pos bf).
Proof. unfold calculate_optimal_hashes. by intros ->. Qed.

(** C2: for 100 estimated elements and the [float] 0.01, with a [log]
    accurate to four units in the last place at that value and at 2,
    [calculate_optimal_hashes] stores [number_bits = 959],
    [number_hashes = 7] and [bloom_length = 120]. *)
Theorem derivation_one_percent (log : float -> float) (bf : BloomFilter) :
  log_near 4 log (float_of_bits32 ONE_PERCENT) LN_1_PERCENT ->
  log_near 4 log 2.0%float LN_2 ->
  estimated_elements bf = 100 ->
  false_positive_probability bf = ONE_PERCENT ->
  exists bf',
    calculate_optimal_hashes log bf = Some bf' /\
    number_bits bf' = 959 /\ number_hashes bf' = 7 /\
    bloom_length bf' = 120.
Proof.
  intros Hp H2 Hn Hfp. eexists. split.
  - apply calculate_from_optimal. rewrite Hn, Hfp.
    exact (derives_sound _ _ _ _ _ _ derives_one_percent Hp H2).
  - done.
Qed.

Lemma log_series_one_percent :
  log_near 4 log_series (float_of_bits32 ONE_PERCENT) LN_1_PERCENT.
Proof. vm_compute. auto 12. Qed.

Lemma log_series_ninety_percent :
  log_near 4 log_series (float_of_bits32 NINETY_PERCENT) LN_90_PERCENT.
Proof. vm_compute. auto 12. Qed.

Lemma log_series_two : log_near 4 log_series 2.0%float LN_2.
Proof. vm_compute. auto 12. Qed.

Lemma derivation_one_percent_witness :
  exists bf',
    calculate_optimal_hashes log_series (with_request 100 ONE_PERCENT blank)
      = Some bf' /\
    number_bits bf' = 959 /\ number_hashes bf' = 7 /\
    bloom_length bf' = 120.
Proof.
  apply (derivation_one_percent log_series
           (with_request 100 ONE_PERCENT blank)).
  - exact log_series_one_percent.
  - exact log_series_two.
  - reflexivity.
  - reflexivity.
Defined.


Lemma init_ninety_percent :
  bloom_filter_init_alt toy_digest log_series blank 100 NINETY_PERCENT None
  = Some (BLOOM_SUCCESS, filter_loose).
Proof. reflexivity. Qed.

(** C9: [calculate_optimal_hashes] stores the rounded quotient as it
    is, so a quotient that rounds to 0 leaves [number_hashes = 0] (as
    for 100 elements at the [float] 0.9); an insert into a filter with
    [number_hashes = 0] succeeds, adds one to [elements_added] and
    leaves every byte of the bit array as it was. *)
Theorem unclamped_hashes :
  (forall log bf bf',
     calculate_optimal_hashes log bf = Some bf' ->
     double_to_uint
       (round (log 2.0 * float_of_Z (number_bits bf')
               / float_of_Z (to_long (estimated_elements bf)))%float)
     = Some (number_hashes bf')) /\
  (forall log bf,
     log_near 4 log (float_of_bits32 NINETY_PERCENT) LN_90_PERCENT ->
     log_near 4 log 2.0%float LN_2 ->
     estimated_elements bf = 100 ->
     false_positive_probability bf = NINETY_PERCENT ->
     exists bf',
       calculate_optimal_hashes log bf = Some bf' /\
       number_hashes bf' = 0) /\
  (forall bf hashes number_hashes_passed,
     number_hashes bf = 0 -> 0 <= number_hashes_passed ->
     region_ok bf -> 0 <= bloom_length bf ->
     exists bf',
       bloom_filter_add_string_alt bf hashes number_hashes_passed
         = Some (BLOOM_SUCCESS, bf') /\
       elements_added bf' = u64 (elements_added bf + 1) /\
       take (Z.to_nat (bloom_length bf)) (bloom bf')
         = take (Z.to_nat (bloom_length bf)) (bloom bf)).
Proof.
  split; [|split].
  - intros log bf bf' H. unfold calculate_optimal_hashes in H.
    destruct (optimal_hashes _ _ _) as [[[m k] num_pos]|] eqn:Ho;
      simplify_eq/=.
    unfold optimal_hashes in Ho.
    destruct (_ =? _); [discriminate|].
    destruct (double_to_uint64 _) as [m'|]; simplify_eq/=.
    destruct (double_to_uint _) as [k'|] eqn:Hk; simplify_eq/=.
    destruct (double_to_long _) as [l'|]; simplify_eq/=.
    exact Hk.
  - intros log bf Hp H2 Hn Hfp. eexists. split.
    + apply calculate_from_optimal. rewrite Hn, Hfp.
      exact (derives_sound _ _ _ _ _ _ derives_ninety_percent Hp H2).
    + done.
  - apply add_without_rounds.
Qed.

Lemma unclamped_hashes_witness :
  (exists bf',
     calculate_optimal_hashes log_series
       (with_request 100 NINETY_PERCENT blank) = Some bf' /\
     number_hashes bf' = 0) /\
  (exists bf',
     bloom_filter_add_string_alt filter_loose [] 0
       = Some (BLOOM_SUCCESS, bf') /\
     elements_added bf' = u64 (elements_added filter_loose + 1) /\
     take (Z.to_nat (bloom_length filter_loose)) (bloom bf')
       = take (Z.to_nat (bloom_length filter_loose)) (bloom filter_loose)).
Proof.
  destruct unclamped_hashes as (_ & Hderive & Hadd). split.
  - apply (Hderive log_series (with_request 100 NINETY_PERCENT blank)).
    + exact log_series_ninety_percent.
    + exact log_series_two.
    + reflexivity.
    + reflexivity.
  - apply (Hadd filter_loose [] 0).
    + reflexivity.
    + lia.
    + reflexivity.
    + simpl. lia.
Defined.

(** ** Validation of the parameters *)

Lemma invalid_parameters_spec (n p : Z) :
  0 <= n <= UINT64_MAX ->
  invalid_parameters n p = true <->
  n = 0 \/ (float_of_bits32 p <=? 0.0)%float = true
        \/ (1.0 <=? float_of_bits32 p)%float = true.
Proof.
  intros Hn. unfold invalid_parameters.
  rewrite !orb_true_iff, Z.leb_le, Z.gtb_gt. intuition lia.
Qed.

Lemma init_alt_rejects MD5 log (bf : BloomFilter) (n p : Z) h :
  invalid_parameters n p = true ->
  bloom_filter_init_alt MD5 log bf n p h = Some (BLOOM_FAILURE, bf).
Proof. unfold bloom_filter_init_alt. by intros ->. Qed.

Lemma init_on_disk_alt_rejects MD5 log fs (bf : BloomFilter) (n p : Z)
    path h :
  invalid_parameters n p = true ->
  bloom_filter_init_on_disk_alt MD5 log fs bf n p path h
    = Some (BLOOM_FAILURE, bf, fs).
Proof. unfold bloom_filter_init_on_disk_alt. by intros ->. Qed.

Lemma init_alt_passes MD5 log (bf : BloomFilter) (n p : Z) h r :
  invalid_parameters n p = false ->
  bloom_filter_init_alt MD5 log bf n p h = Some r ->
  r.1 = BLOOM_SUCCESS.
Proof.
  unfold bloom_filter_init_alt. intros -> H.
  destruct (calculate_optimal_hashes _ _); by simplify_eq/=.
Qed.

(** C5, at a NaN: the test both initialisers open with lets a NaN
    probability through, although a NaN is not inside (0,1), so
    [bloom_filter_init_alt] does not answer it with [BLOOM_FAILURE]. *)
Theorem init_accepts_nan :
  float_of_bits32 FLOAT_NAN = nan /\
  invalid_parameters 100 FLOAT_NAN = false /\
  (forall MD5 log bf h,
     fst <$> bloom_filter_init_alt MD5 log bf 100 FLOAT_NAN h
       <> Some BLOOM_FAILURE).
Proof.
  split; [reflexivity|]. split; [reflexivity|].
  intros MD5 log bf h.
  destruct (bloom_filter_init_alt MD5 log bf 100 FLOAT_NAN h) as [r|] eqn:H;
    [|discriminate].
  simpl.
  rewrite (init_alt_passes MD5 log bf 100 FLOAT_NAN h r eq_refl H).
  discriminate.
Qed.

(** ** The estimate of the false positive rate *)

Lemma to_int_shift (y c : Z) : to_int (y + c * 2 ^ 32) = to_int y.
Proof.
  unfold to_int.
  replace (y + c * 2 ^ 32 + 2 ^ 31) with (y + 2 ^ 31 + c * 2 ^ 32) by lia.
  by rewrite Z_mod_plus_full.
Qed.

(** As long as [number_hashes * elements_added] fits an [int], [num] is
    its opposite, the numerator of the textbook estimate. *)
Lemma rate_num_in_range (bf : BloomFilter) :
  0 <= number_hashes bf -> 0 <= elements_added bf ->
  number_hashes bf * elements_added bf <= INT_MAX ->
  rate_num bf = - (number_hashes bf * elements_added bf).
Proof.
  unfold rate_num, INT_MAX, u64, u32. intros Hk He Hmax.
  set (k := number_hashes bf) in *. set (e := elements_added bf) in *.
  rewrite (Z.mod_eq (k * -1) (2 ^ 32)) by lia.
  set (q1 := k * -1 / 2 ^ 32).
  rewrite (Z.mod_eq ((k * -1 - 2 ^ 32 * q1) * e) (2 ^ 64)) by lia.
  set (q2 := (k * -1 - 2 ^ 32 * q1) * e / 2 ^ 64).
  replace ((k * -1 - 2 ^ 32 * q1) * e - 2 ^ 64 * q2)
    with (- (k * e) + (- q1 * e - 2 ^ 32 * q2) * 2 ^ 32) by lia.
  rewrite to_int_shift. unfold to_int.
  rewrite Z.mod_small by lia. lia.
Qed.

(** C8, past that range: with 7 hash rounds and 306783379 inserts
    counted, the product wraps, [num] is positive, and [exp] is handed
    a positive argument where the estimate
    (1 - e^(-k * elements_added / m))^k has a negative one. *)
Theorem rate_overflows :
  number_hashes filter_worn * elements_added filter_worn = 2147483653 /\
  rate_num filter_worn = 2147483643 /\
  (0 <? rate_exponent filter_worn)%float = true /\
  (forall exp pow,
     bloom_filter_current_false_positive_rate exp pow filter_worn
     = to_float32
         (pow (1 - exp (2147483643 / 959))%float 7%float)).
Proof.
  split; [reflexivity|]. split; [reflexivity|]. split; [reflexivity|].
  intros exp pow. reflexivity.
Qed.

(** ** Hexadecimal digits *)

Lemma hex_char_cases (d : Z) :
  0 <= d < 16 ->
  hex_value (hex_char d) = Some d /\
  beyond_digits [hex_char d] = false /\
  forall d' s, 0 <= d' < 16 ->
    beyond_digits (hex_char d :: hex_char d' :: s) = false.
Proof.
  intros Hd.
  assert (Hcases : d = 0 \/ d = 1 \/ d = 2 \/ d = 3 \/ d = 4 \/ d = 5 \/
                   d = 6 \/ d = 7 \/ d = 8 \/ d = 9 \/ d = 10 \/ d = 11 \/
                   d = 12 \/ d = 13 \/ d = 14 \/ d = 15) by lia.
  repeat (destruct Hcases as [->|Hcases]); try subst d;
    (split; [reflexivity|]; split; [reflexivity|]);
    try (intros; reflexivity).
  intros d' s Hd'.
  assert (Hcases : d' = 0 \/ d' = 1 \/ d' = 2 \/ d' = 3 \/ d' = 4 \/
                   d' = 5 \/ d' = 6 \/ d' = 7 \/ d' = 8 \/ d' = 9 \/
                   d' = 10 \/ d' = 11 \/ d' = 12 \/ d' = 13 \/ d' = 14 \/
                   d' = 15) by lia.
  repeat (destruct Hcases as [->|Hcases]); try subst d'; reflexivity.
Qed.

Lemma sprintf_hex_length (w : nat) (z : Z) : length (sprintf_hex w z) = w.
Proof.
  revert z. induction w as [|w IH]; intros z; simpl; [done|].
  rewrite length_app, IH. simpl. lia.
Qed.

Lemma sprintf_hex_digit_chars (w : nat) (z : Z) :
  Forall digit_char (sprintf_hex w z).
Proof.
  revert z. induction w as [|w IH]; intros z; simpl; [constructor|].
  apply Forall_app. split; [apply IH|].
  constructor; [|constructor].
  exists (z mod 16). split; [apply Z.mod_pos_bound; lia|done].
Qed.

Lemma digit_chars_plain (s : list ascii) :
  Forall digit_char s -> beyond_digits s = false.
Proof.
  intros Hs. destruct Hs as [|c s (d & Hd & ->) Hs]; [done|].
  destruct Hs as [|c' s (d' & Hd' & ->) Hs].
  - apply hex_char_cases, Hd.
  - apply hex_char_cases; done.
Qed.

Lemma hex_digits_sprintf (w : nat) (z : Z) (rest : list ascii) :
  exists ds,
    hex_digits (sprintf_hex w z ++ rest) = ds ++ hex_digits rest /\
    length ds = w /\
    forall acc,
      fold_left (fun acc d => 16 * acc + d) ds acc
      = acc * 16 ^ Z.of_nat w + z mod 16 ^ Z.of_nat w.
Proof.
  revert z rest. induction w as [|w IH]; intros z rest.
  { exists []. simpl. split; [done|]. split; [done|].
    intros acc. rewrite Z.mod_1_r. lia. }
  simpl sprintf_hex. rewrite <- app_assoc. simpl app.
  destruct (IH (z / 16) (hex_char (z mod 16) :: rest)) as (ds & Hds & Hlen & Hval).
  assert (Hd : 0 <= z mod 16 < 16) by (apply Z.mod_pos_bound; lia).
  exists (ds ++ [z mod 16]). split; [|split].
  - rewrite Hds. simpl.
    rewrite (proj1 (hex_char_cases _ Hd)). by rewrite <- app_assoc.
  - rewrite length_app, Hlen. simpl. lia.
  - intros acc. rewrite fold_left_app, Hval. simpl.
    rewrite Nat2Z.inj_succ, Z.pow_succ_r by lia.
    rewrite (Z.rem_mul_r z 16 (16 ^ Z.of_nat w)) by lia.
    lia.
Qed.

Lemma scan_hex_sprintf (w : nat) (z : Z) :
  0 <= z < 16 ^ Z.of_nat w ->
  exists ds,
    scan_hex (sprintf_hex w z) = Some ds /\ length ds = w /\
    digits_value ds = z.
Proof.
  intros Hz. unfold scan_hex.
  rewrite digit_chars_plain by apply sprintf_hex_digit_chars.
  destruct (hex_digits_sprintf w z []) as (ds & Hds & Hlen & Hval).
  rewrite !app_nil_r in Hds. exists ds. split; [by rewrite Hds|].
  split; [done|]. unfold digits_value. rewrite Hval.
  rewrite Z.mod_small by done. lia.
Qed.

Lemma strtoull16_sprintf (z : Z) :
  0 <= z <= UINT64_MAX -> strtoull16 (sprintf_hex 16 z) = Some z.
Proof.
  unfold UINT64_MAX. intros Hz. unfold strtoull16.
  destruct (scan_hex_sprintf 16 z) as (ds & -> & _ & Hval).
  { change (16 ^ Z.of_nat 16) with (2 ^ 64). lia. }
  simpl. rewrite Hval. f_equal. unfold UINT64_MAX. lia.
Qed.

Lemma sscanf_x_sprintf (z : Z) :
  0 <= z < 2 ^ 32 -> sscanf_x (sprintf_hex 8 z) = Some z.
Proof.
  intros Hz. unfold sscanf_x.
  destruct (scan_hex_sprintf 8 z) as (ds & -> & Hlen & Hval).
  { change (16 ^ Z.of_nat 8) with (2 ^ 32). lia. }
  simpl. destruct ds as [|d ds]; [discriminate|].
  rewrite Hval. unfold u32. by rewrite Z.mod_small.
Qed.

Lemma sscanf_2hhx_sprintf (b old : Z) (rest : list ascii) :
  0 <= b < 256 ->
  sscanf_2hhx (sprintf_hex 2 b ++ rest) old = Some b.
Proof.
  intros Hb. unfold sscanf_2hhx.
  rewrite take_app_length' by (by rewrite sprintf_hex_length).
  destruct (scan_hex_sprintf 2 b) as (ds & -> & Hlen & Hval).
  { change (16 ^ Z.of_nat 2) with 256. lia. }
  simpl. destruct ds as [|d ds]; [discriminate|].
  rewrite Hval. unfold u8. by rewrite Z.mod_small.
Qed.

(** ** The loops of the hexadecimal export and import *)

Local Opaque sprintf_hex.

Lemma export_loop_defined (n i : nat) (A : list Z) :
  (i + n <= length A)%nat -> is_Some (export_loop i n A).
Proof.
  revert i. induction n as [|n IH]; intros i Hn; simpl; [eauto|].
  destruct (lookup_lt_is_Some_2 A i) as [b ->]; [lia|]. simpl.
  destruct (IH (S i)) as [rest ->]; [lia|]. simpl. eauto.
Qed.

Lemma export_loop_spec (n i : nat) (A : list Z) (hex : list ascii) :
  export_loop i n A = Some hex ->
  length hex = (n * 2)%nat /\
  forall j rest, (j < n)%nat ->
    exists b tail,
      A !! (i + j)%nat = Some b /\
      drop (j * 2) (hex ++ rest) = sprintf_hex 2 b ++ tail.
Proof.
  revert i hex. induction n as [|n IH]; intros i hex H; simplify_eq/=.
  { split; [done|]. intros; lia. }
  destruct (A !! i) as [b|] eqn:Hb; simplify_eq/=.
  destruct (export_loop (S i) n A) as [hex'|] eqn:H'; simplify_eq/=.
  destruct (IH _ _ H') as [Hlen Hchunks]. split.
  - rewrite length_app, sprintf_hex_length, Hlen. lia.
  - intros j rest Hj. destruct j as [|j].
    + exists b, (hex' ++ rest). rewrite Nat.add_0_r. split; [done|].
      simpl. by rewrite <- !app_assoc.
    + destruct (Hchunks j rest) as (b' & tail & Hb' & Hdrop); [lia|].
      exists b', tail. split.
      * by replace (i + S j)%nat with (S i + j)%nat by lia.
      * rewrite <- Hdrop.
        change (S j * 2)%nat with (2 + j * 2)%nat.
        rewrite <- drop_drop. reflexivity.
Qed.

Lemma import_loop_spec (bytes : list Z) (hex : list ascii) (n i : nat)
    (A : list Z) :
  (forall j, (i <= j < i + n)%nat ->
     exists b tail,
       0 <= b < 256 /\ bytes !! j = Some b /\
       drop (j * 2) hex = sprintf_hex 2 b ++ tail) ->
  (i + n <= length A)%nat ->
  ((i + n) * 2 <= length hex)%nat ->
  exists A',
    import_loop hex i n A = Some A' /\
    length A' = length A /\
    (forall j, (i <= j < i + n)%nat -> A' !! j = bytes !! j) /\
    (forall j, (j < i)%nat -> A' !! j = A !! j).
Proof.
  revert i A. induction n as [|n IH]; intros i A Hchunks HA Hhex.
  { exists A. simpl. split; [done|]. split; [done|]. split; [intros; lia|done]. }
  simpl. case_decide; [|lia].
  destruct (lookup_lt_is_Some_2 A i) as [old ->]; [lia|]. simpl.
  destruct (Hchunks i) as (b & tail & Hb & Hbi & Hdrop); [lia|].
  rewrite Hdrop, sscanf_2hhx_sprintf by done. simpl.
  destruct (IH (S i) (<[i := b]> A)) as (A' & -> & Hlen & Hnew & Hold).
  - intros j Hj. apply Hchunks. lia.
  - rewrite length_insert. lia.
  - lia.
  - exists A'. split; [done|]. rewrite length_insert in Hlen.
    split; [done|]. split.
    + intros j Hj. destruct (decide (j = i)) as [->|Hne].
      * rewrite Hold by lia. rewrite list_lookup_insert_eq by lia. done.
      * apply Hnew. lia.
    + intros j Hj. rewrite Hold by lia. apply list_lookup_insert_ne. lia.
Qed.

Lemma derived_ok_optimal (log : float -> float) (bf : BloomFilter) :
  derived_ok log bf ->
  optimal_hashes (log (float_of_bits32 (false_positive_probability bf)))
    (log 2.0%float) (to_long (estimated_elements bf))
  = Some (number_bits bf, number_hashes bf, bloom_length bf).
Proof.
  unfold derived_ok, calculate_optimal_hashes. intros H.
  destruct (optimal_hashes _ _ _) as [[[m k] l]|]; simplify_eq/=.
  by rewrite <- H.
Qed.

(** ** Hexadecimal round trip *)

Lemma trailer_fields (body e i p : list ascii) :
  length e = 16%nat -> length i = 16%nat -> length p = 8%nat ->
  let hex := body ++ e ++ i ++ p in
  length hex = (length body + 40)%nat /\
  take 16 (drop (length hex - 40) hex) = e /\
  take 16 (drop (length hex - 24) hex) = i /\
  take 8 (drop (length hex - 8) hex) = p.
Proof.
  intros He Hi Hp hex.
  assert (Hlen : length hex = (length body + 40)%nat).
  { unfold hex. rewrite !length_app. lia. }
  split; [exact Hlen|]. rewrite Hlen. unfold hex. split; [|split].
  - replace (length body + 40 - 40)%nat with (length body) by lia.
    rewrite drop_app_length. by rewrite take_app_length'.
  - rewrite (app_assoc body e).
    rewrite drop_app_length' by (rewrite length_app; lia).
    by rewrite take_app_length'.
  - rewrite (app_assoc body e), (app_assoc (body ++ e) i).
    rewrite drop_app_length' by (rewrite !length_app; lia).
    rewrite take_ge by lia. done.
Qed.

(** C3: for a filter whose fields hold values of their types and whose
    derived fields are those of its parameters,
    [bloom_filter_export_hex_string] returns a string from which
    [bloom_filter_import_hex_string_alt] rebuilds the same bit array
    bytes, [estimated_elements], [elements_added] and bit pattern of
    [false_positive_probability] (and the same derived fields). *)
Theorem hex_round_trip (MD5 : list Z -> list Z) (log : float -> float)
    (bf target : BloomFilter) (h : option HashFunction) :
  typed_filter bf -> derived_ok log bf ->
  0 <= bloom_length bf <= Z.of_nat (length (bloom bf)) ->
  exists hex bf',
    bloom_filter_export_hex_string bf = Some hex /\
    bloom_filter_import_hex_string_alt MD5 log target hex h
      = Some (BLOOM_SUCCESS, bf') /\
    bloom bf' = take (Z.to_nat (bloom_length bf)) (bloom bf) /\
    estimated_elements bf' = estimated_elements bf /\
    elements_added bf' = elements_added bf /\
    false_positive_probability bf' = false_positive_probability bf /\
    number_bits bf' = number_bits bf /\
    number_hashes bf' = number_hashes bf /\
    bloom_length bf' = bloom_length bf.
Proof.
  intros [Hbytes Hest Hadd Hprob] Hderived Hregion.
  assert (Hsign : (bloom_length bf <? 0) = false) by (apply Z.ltb_ge; lia).
  set (n := Z.to_nat (bloom_length bf)) in *.
  destruct (export_loop_defined n 0 (bloom bf)) as [body Hbody]; [lia|].
  destruct (export_loop_spec _ _ _ _ Hbody) as [Hblen Hchunks].
  set (e := sprintf_hex 16 (estimated_elements bf)).
  set (i := sprintf_hex 16 (elements_added bf)).
  set (p := sprintf_hex 8 (false_positive_probability bf)).
  destruct (trailer_fields body e i p) as (Hlen & He & Hi & Hp);
    try apply sprintf_hex_length.
  set (hex := body ++ e ++ i ++ p) in *.
  exists (string_of_list_ascii hex).
  assert (Hexport : bloom_filter_export_hex_string bf
                    = Some (string_of_list_ascii hex)).
  { unfold bloom_filter_export_hex_string. fold n. by rewrite Hsign, Hbody. }
  unfold bloom_filter_import_hex_string_alt, chars.
  rewrite list_ascii_of_string_of_list_ascii.
  rewrite He, Hi, Hp. unfold e, i, p.
  rewrite !strtoull16_sprintf, sscanf_x_sprintf by done.
  assert (Heven : (length hex mod 2 =? 0)%nat = true).
  { rewrite Hlen, Hblen.
    replace (n * 2 + 40)%nat with ((n + 20) * 2)%nat by lia.
    by rewrite Nat.Div0.mod_mul. }
  rewrite Heven. simpl negb. cbv iota.
  case_decide; [|lia]. simpl.
  set (bf1 := bloom_filter_set_hash_function MD5 _ h).
  rewrite (calculate_from_optimal log bf1 (number_bits bf)
             (number_hashes bf) (bloom_length bf))
    by exact (derived_ok_optimal log bf Hderived).
  simpl. rewrite Hsign. fold n.
  destruct (import_loop_spec (bloom bf) hex n 0 (calloc (bloom_length bf)))
    as (A' & HA' & HlenA & Hnew & _).
  - intros j Hj.
    destruct (Hchunks j (e ++ i ++ p)) as (b & tail & Hb & Hdrop); [lia|].
    exists b, tail. split; [|split; [exact Hb|exact Hdrop]].
    exact (Forall_lookup_1 _ _ _ _ Hbytes Hb).
  - unfold calloc. rewrite length_replicate. fold n. lia.
  - rewrite Hlen, Hblen. lia.
  - rewrite HA'. simpl. eexists. split; [exact Hexport|].
    split; [reflexivity|]. simpl. split; [|done].
    apply list_eq. intros j.
    unfold calloc in HlenA. rewrite length_replicate in HlenA. fold n in HlenA.
    destruct (decide (j < n)%nat) as [Hj|Hj].
    + rewrite lookup_take_lt by done. apply Hnew. lia.
    + rewrite lookup_take_ge by lia. apply lookup_ge_None. lia.
Qed.

Lemma filter_hello_typed : typed_filter filter_hello.
Proof.
  split.
  - apply (bool_decide_unpack _). vm_compute. reflexivity.
  - split; apply Z.leb_le; reflexivity.
  - split; apply Z.leb_le; reflexivity.
  - split; [apply Z.leb_le|apply Z.ltb_lt]; reflexivity.
Qed.

Lemma filter_hello_derived : derived_ok log_series filter_hello.
Proof. reflexivity. Qed.

Lemma hex_round_trip_witness :
  exists hex bf',
    bloom_filter_export_hex_string filter_hello = Some hex /\
    bloom_filter_import_hex_string_alt toy_digest log_series blank hex None
      = Some (BLOOM_SUCCESS, bf') /\
    bloom bf' = take (Z.to_nat (bloom_length filter_hello))
                  (bloom filter_hello) /\
    estimated_elements bf' = estimated_elements filter_hello /\
    elements_added bf' = elements_added filter_hello /\
    false_positive_probability bf'
      = false_positive_probability filter_hello /\
    number_bits bf' = number_bits filter_hello /\
    number_hashes bf' = number_hashes filter_hello /\
    bloom_length bf' = bloom_length filter_hello.
Proof.
  apply (hex_round_trip toy_digest log_series filter_hello blank None).
  - exact filter_hello_typed.
  - exact filter_hello_derived.
  - split; apply Z.leb_le; reflexivity.
Defined.

(** The string the export of [filter_hello] is, and the import of it. *)
Lemma export_hello :
  bloom_filter_export_hex_string filter_hello
  = Some ("000000000000000000000000000000000000000000000000000000000000000000000000008000000000000000000000000000000000000000100000000000000000000000000000000000000000088001000000000000000000000000000000000000000000000000088000000000000000000000000000"
          ++ "0000000000000064" ++ "0000000000000001" ++ "3c23d70a")%string.
Proof. vm_compute. reflexivity. Qed.

(** A filter with the counter of [filter_worn] is what the import of a
    hexadecimal string builds. *)
Lemma worn_by_import :
  (hex ← bloom_filter_export_hex_string filter_worn;
   r ← bloom_filter_import_hex_string_alt toy_digest log_series blank hex
         None;
   Some (r.1, elements_added r.2, number_hashes r.2, number_bits r.2))
  = Some (BLOOM_SUCCESS, 306783379, 7, 959).
Proof. vm_compute. reflexivity. Qed.

(** ** Further properties *)

(** X1: the initialisers on parameters their test refuses: no estimated
    element, or a probability that compares at most 0 or at least 1.
    Both return [BLOOM_FAILURE] at once; the filter and the file system
    are as they were. *)
Theorem invalid_parameters_rejected (MD5 : list Z -> list Z)
    (log : float -> float) (fs : FileSystem) (bf : BloomFilter) (n p : Z)
    (path : string) (h : option HashFunction) :
  0 <= n <= UINT64_MAX ->
  n = 0 \/ (float_of_bits32 p <=? 0.0)%float = true
        \/ (1.0 <=? float_of_bits32 p)%float = true ->
  bloom_filter_init_alt MD5 log bf n p h = Some (BLOOM_FAILURE, bf) /\
  bloom_filter_init_on_disk_alt MD5 log fs bf n p path h
    = Some (BLOOM_FAILURE, bf, fs).
Proof.
  intros Hn Hbad. apply (invalid_parameters_spec n p Hn) in Hbad.
  split; [by apply init_alt_rejects|by apply init_on_disk_alt_rejects].
Qed.

Lemma invalid_parameters_rejected_witness :
  bloom_filter_init_alt toy_digest log_series blank 100 0x3f800000 None
    = Some (BLOOM_FAILURE, blank) /\
  bloom_filter_init_on_disk_alt toy_digest log_series
    (mkFileSystem ∅ (fun _ => true)) blank 100 0x3f800000 "filter.blm" None
    = Some (BLOOM_FAILURE, blank, mkFileSystem ∅ (fun _ => true)).
Proof.
  apply (invalid_parameters_rejected toy_digest log_series
           (mkFileSystem ∅ (fun _ => true)) blank 100 0x3f800000
           "filter.blm" None).
  - split; apply Z.leb_le; reflexivity.
  - right. right. reflexivity.
Defined.

(** X2: the estimate of the rate while [number_hashes * elements_added]
    fits an [int]: [num] is the opposite of that product, and [exp] is
    handed
    [- (number_hashes * elements_added) / number_bits]. *)
Theorem rate_exponent_in_range (bf : BloomFilter) :
  0 <= number_hashes bf -> 0 <= elements_added bf ->
  number_hashes bf * elements_added bf <= INT_MAX ->
  rate_num bf = - (number_hashes bf * elements_added bf) /\
  rate_exponent bf
  = (float_of_Z (- (number_hashes bf * elements_added bf)) * 1.0
     / (float_of_Z (number_bits bf) * 1.0))%float.
Proof.
  intros Hk He Hmax. unfold rate_exponent.
  by rewrite rate_num_in_range.
Qed.

Lemma rate_exponent_in_range_witness :
  rate_num filter_hello = - (7 * 1) /\
  rate_exponent filter_hello
  = (float_of_Z (- (7 * 1)) * 1.0 / (float_of_Z 959 * 1.0))%float.
Proof.
  apply (rate_exponent_in_range filter_hello).
  - apply Z.leb_le. reflexivity.
  - apply Z.leb_le. reflexivity.
  - apply Z.leb_le. reflexivity.
Defined.

(** ** What the round trip asks of a filter is kept by every history *)

Lemma add_string_alt_fields (bf bf' : BloomFilter) hs n st :
  bloom_filter_add_string_alt bf hs n = Some (st, bf') ->
  exists A e,
    bf' = with_elements_added e (with_bloom A bf) /\
    (A = bloom bf /\ e = elements_added bf \/
     e = u64 (elements_added bf + 1) /\
     exists A0,
       add_loop (number_bits bf) hs 0 (Z.to_nat (number_hashes bf)) (bloom bf)
         = Some A0 /\
       (A = A0 \/ write_counter e A0 = Some A)).
Proof.
  unfold bloom_filter_add_string_alt. intros H.
  destruct (n <? number_hashes bf).
  { simplify_eq. exists (bloom bf'), (elements_added bf').
    split; [by destruct bf'|by left]. }
  destruct (add_loop _ _ _ _ _) as [A0|] eqn:HA0; simplify_eq/=.
  destruct (__is_on_disk bf =? 1); simplify_eq/=.
  - destruct (write_counter _ A0) as [A|] eqn:HA; simplify_eq/=.
    eexists _, _. split; [reflexivity|]. right. split; [done|].
    exists A0. split; [done|by right].
  - eexists _, _. split; [reflexivity|]. right. split; [done|].
    exists A0. split; [done|by left].
Qed.

Lemma step_fields (op : operation) (bf bf' : BloomFilter) :
  step op bf = Some bf' ->
  exists A e,
    bf' = with_elements_added e (with_bloom A bf) /\
    (A = bloom bf /\ e = elements_added bf \/
     e = u64 (elements_added bf + 1) /\
     exists hs A0,
       add_loop (number_bits bf) hs 0 (Z.to_nat (number_hashes bf)) (bloom bf)
         = Some A0 /\
       (A = A0 \/ write_counter e A0 = Some A)).
Proof.
  intros H. destruct (is_insert op) eqn:Hop.
  - destruct op; try discriminate; simpl in H.
    + unfold bloom_filter_add_string in H.
      destruct (bloom_filter_calculate_hashes bf str _) as [hs|];
        simplify_eq/=.
      destruct (bloom_filter_add_string_alt bf hs _) as [[st b]|] eqn:Ha;
        simplify_eq/=.
      destruct (add_string_alt_fields _ _ _ _ _ Ha)
        as (A & e & -> & [Hsame|(He & A0 & HA0 & HA)]).
      * exists A, e. split; [done|by left].
      * exists A, e. split; [done|]. right. split; [done|]. by exists hs, A0.
    + destruct (bloom_filter_add_string_alt bf hashes _) as [[st b]|] eqn:Ha;
        simplify_eq/=.
      destruct (add_string_alt_fields _ _ _ _ _ Ha)
        as (A & e & -> & [Hsame|(He & A0 & HA0 & HA)]).
      * exists A, e. split; [done|by left].
      * exists A, e. split; [done|]. right. split; [done|].
        by exists hashes, A0.
  - rewrite (step_read_only _ _ _ Hop H).
    exists (bloom bf), (elements_added bf). split; [by destruct bf|by left].
Qed.

Lemma set_bit_bytes (A A' : list Z) (k : Z) :
  Forall (fun b => 0 <= b < 256) A -> set_bit A k = Some A' ->
  Forall (fun b => 0 <= b < 256) A'.
Proof.
  intros HA H. unfold set_bit in H.
  destruct (A !! Z.to_nat (k / 8)) as [b|]; simplify_eq/=.
  apply Forall_insert; [done|]. unfold u8.
  apply (Z.mod_pos_bound _ (2 ^ 8)). lia.
Qed.

Lemma add_loop_bytes (m : Z) (hs : list Z) (n i : nat) (A A' : list Z) :
  Forall (fun b => 0 <= b < 256) A -> add_loop m hs i n A = Some A' ->
  Forall (fun b => 0 <= b < 256) A'.
Proof.
  revert i A. induction n as [|n IH]; intros i A HA H; simplify_eq/=; [done|].
  destruct (hs !! i) as [h|]; simplify_eq/=.
  destruct (umod h m) as [k|]; simplify_eq/=.
  destruct (set_bit A k) as [A1|] eqn:H1; simplify_eq/=.
  eapply IH; [|exact H]. eapply set_bit_bytes; [exact HA|exact H1].
Qed.

Lemma le_bytes_bytes (w : nat) (z : Z) :
  Forall (fun b => 0 <= b < 256) (le_bytes w z).
Proof.
  revert z. induction w as [|w IH]; intros z; simpl; constructor.
  - apply Z.mod_pos_bound. lia.
  - apply IH.
Qed.

Lemma write_at_bytes (src : list Z) (i : nat) (A A' : list Z) :
  Forall (fun b => 0 <= b < 256) src ->
  Forall (fun b => 0 <= b < 256) A -> write_at i src A = Some A' ->
  Forall (fun b => 0 <= b < 256) A'.
Proof.
  revert i A. induction src as [|b src IH]; intros i A Hsrc HA H;
    simplify_eq/=; [done|].
  case_decide; [|done].
  apply Forall_cons in Hsrc as [Hb Hsrc].
  eapply IH; [exact Hsrc| |exact H]. by apply Forall_insert.
Qed.

Lemma step_typed (op : operation) (bf bf' : BloomFilter) :
  typed_filter bf -> step op bf = Some bf' -> typed_filter bf'.
Proof.
  intros [Hbytes Hest Hadd Hprob] H.
  destruct (step_fields _ _ _ H)
    as (A & e & -> & [[-> ->]|(-> & hs & A0 & HA0 & HA)]).
  { by split. }
  assert (HA0b : Forall (fun b => 0 <= b < 256) A0)
    by (eapply add_loop_bytes; [exact Hbytes|exact HA0]).
  split; simpl; try done.
  - destruct HA as [->|HA]; [done|].
    unfold write_counter in HA. case_decide; [|done].
    eapply write_at_bytes; [apply le_bytes_bytes|exact HA0b|exact HA].
  - unfold u64, UINT64_MAX.
    pose proof (Z.mod_pos_bound (elements_added bf + 1) (2 ^ 64)). lia.
Qed.

Lemma derived_ok_iff (log : float -> float) (bf : BloomFilter) :
  derived_ok log bf <->
  optimal_hashes (log (float_of_bits32 (false_positive_probability bf)))
    (log 2.0%float) (to_long (estimated_elements bf))
  = Some (number_bits bf, number_hashes bf, bloom_length bf).
Proof.
  split; [apply derived_ok_optimal|].
  intros H. unfold derived_ok.
  rewrite (calculate_from_optimal log bf _ _ _ H). by destruct bf.
Qed.

Lemma step_derived (log : float -> float) (op : operation)
    (bf bf' : BloomFilter) :
  derived_ok log bf -> step op bf = Some bf' -> derived_ok log bf'.
Proof.
  rewrite !derived_ok_iff. intros Hd H.
  destruct (step_fields _ _ _ H) as (A & e & -> & _). exact Hd.
Qed.

Lemma run_round_trip_ready (log : float -> float) (ops : list operation)
    (bf bf' : BloomFilter) :
  typed_filter bf -> derived_ok log bf -> run ops bf = Some bf' ->
  typed_filter bf' /\ derived_ok log bf' /\
  bloom_length bf' = bloom_length bf /\
  length (bloom bf') = length (bloom bf).
Proof.
  revert bf. induction ops as [|op ops IH]; intros bf Ht Hd H; simplify_eq/=.
  { done. }
  destruct (step op bf) as [bf1|] eqn:H1; simplify_eq/=.
  destruct (IH bf1) as (Ht' & Hd' & Hl' & Hlen');
    [by eapply step_typed|by eapply step_derived|done|].
  split; [done|]. split; [done|].
  destruct (step_fields _ _ _ H1)
    as (A & e & -> & [[-> ->]|(-> & hs & A0 & HA0 & HA)]).
  { done. }
  split; [done|]. rewrite Hlen'. simpl.
  pose proof (add_loop_length _ _ _ _ _ _ HA0) as HlenA0.
  destruct HA as [->|HA]; [done|].
  destruct (write_counter_spec _ _ _ HA) as [-> _]. done.
Qed.



Lemma init_on_disk_one_percent :
  bloom_filter_init_on_disk_alt toy_digest log_series
    (mkFileSystem ∅ (fun _ => true)) blank 100 ONE_PERCENT "filter.blm" None
  = Some (BLOOM_SUCCESS, filter_mapped,
          mkFileSystem {[ "filter.blm"%string := bloom filter_mapped ]}
            (fun _ => true)).
Proof. reflexivity. Qed.

(** ** Which bits an insert sets *)

Lemma bit_position_unique (j k : Z) :
  0 <= j -> 0 <= k ->
  Z.to_nat (k / 8) = Z.to_nat (j / 8) -> k mod 8 = j mod 8 -> k = j.
Proof.
  intros Hj Hk Hq Hr.
  assert (0 <= j / 8) by (apply Z.div_pos; lia).
  assert (0 <= k / 8) by (apply Z.div_pos; lia).
  rewrite (Z.div_mod j 8), (Z.div_mod k 8) by lia.
  assert (k / 8 = j / 8) by lia. congruence.
Qed.

Lemma set_bit_only (A A' : list Z) (k j : Z) :
  0 <= k -> 0 <= j -> set_bit A k = Some A' ->
  bit_on A' j -> bit_on A j \/ j = k.
Proof.
  intros Hk Hj H (c & Hc & Hbit). unfold set_bit in H.
  destruct (A !! Z.to_nat (k / 8)) as [b|] eqn:Hb; simplify_eq/=.
  destruct (decide (Z.to_nat (k / 8) = Z.to_nat (j / 8))) as [Heq|Hne].
  - rewrite <- Heq in Hc.
    rewrite list_lookup_insert_eq in Hc by (eapply lookup_lt_Some, Hb).
    simplify_eq.
    assert (0 <= k mod 8 < 8) by (apply Z.mod_pos_bound; lia).
    assert (0 <= j mod 8 < 8) by (apply Z.mod_pos_bound; lia).
    rewrite testbit_set in Hbit by lia.
    apply orb_true_iff in Hbit as [Hbit|Hsame].
    + left. exists b. split; [by rewrite <- Heq|done].
    + right. apply Z.eqb_eq in Hsame. symmetry.
      by apply bit_position_unique.
  - left. exists c. split; [|done].
    by rewrite list_lookup_insert_ne in Hc.
Qed.

Lemma add_loop_only (m : Z) (hs : list Z) (n i : nat) (A A' : list Z) j :
  0 < m -> 0 <= j -> add_loop m hs i n A = Some A' -> bit_on A' j ->
  bit_on A j \/
  exists i' h, (i <= i' < i + n)%nat /\ hs !! i' = Some h /\ j = h mod m.
Proof.
  intros Hm Hj. revert i A.
  induction n as [|n IH]; intros i A H Hon; simplify_eq/=; [by left|].
  destruct (hs !! i) as [h|] eqn:Hh; simplify_eq/=.
  rewrite umod_pos in H by done. simpl in H.
  destruct (set_bit A (h mod m)) as [A1|] eqn:H1; simplify_eq/=.
  destruct (IH _ _ H Hon) as [Hon1|(i' & h' & Hi' & Hh' & ->)].
  - destruct (set_bit_only _ _ _ _ (proj1 (Z.mod_pos_bound h m Hm)) Hj H1 Hon1)
      as [HonA| ->]; [by left|].
    right. exists i, h. split; [lia|done].
  - right. exists i', h'. split; [lia|done].
Qed.

Lemma elem_of_positions (m : Z) (hs : list Z) (k : nat) (j : Z) :
  j ∈ positions m hs k <->
  exists i h, (i < k)%nat /\ hs !! i = Some h /\ j = h mod m.
Proof.
  unfold positions. rewrite list_elem_of_fmap. split.
  - intros (h & -> & Hin). apply list_elem_of_lookup in Hin as [i Hi].
    apply lookup_take_Some in Hi as [Hi Hlt]. by exists i, h.
  - intros (i & h & Hi & Hh & ->). exists h. split; [done|].
    apply list_elem_of_lookup. exists i. by rewrite lookup_take_lt.
Qed.

Lemma add_loop_bits (m : Z) (hs : list Z) (n : nat) (A A' : list Z) j :
  0 < m -> 0 <= j -> add_loop m hs 0 n A = Some A' ->
  bit_on A' j <-> bit_on A j \/ j ∈ positions m hs n.
Proof.
  intros Hm Hj H. rewrite elem_of_positions. split.
  - intros Hon. destruct (add_loop_only _ _ _ _ _ _ _ Hm Hj H Hon)
      as [?|(i & h & Hi & Hh & ->)]; [by left|].
    right. exists i, h. split; [lia|done].
  - intros [Hon|(i & h & Hi & Hh & ->)].
    + eapply add_loop_keeps; [exact Hm|exact H|exact Hon].
    + eapply add_loop_sets; [exact Hm|exact H| |exact Hh]. lia.
Qed.

Lemma write_counter_bits (bf : BloomFilter) (e : Z) (A A' : list Z) j :
  Z.of_nat (length A) = bloom_length bf + 20 ->
  write_counter e A = Some A' ->
  0 <= j < 8 * bloom_length bf -> bit_on A' j <-> bit_on A j.
Proof.
  intros Hlen Hw Hj.
  destruct (write_counter_spec _ _ _ Hw) as [_ Hlow].
  assert (Hidx : (Z.to_nat (j / 8) + 12 < length A)%nat).
  { assert (0 <= j / 8 < bloom_length bf)
      by (split; [apply Z.div_pos|apply Z.div_lt_upper_bound]; lia).
    lia. }
  unfold bit_on. by rewrite (Hlow _ Hidx).
Qed.

Lemma add_string_alt_bits (bf bf' : BloomFilter) hs n j :
  valid_filter bf ->
  bloom_filter_add_string_alt bf hs n = Some (BLOOM_SUCCESS, bf') ->
  0 <= j < 8 * bloom_length bf ->
  bit_on (bloom bf') j <->
  bit_on (bloom bf) j
  \/ j ∈ positions (number_bits bf) hs (Z.to_nat (number_hashes bf)).
Proof.
  intros [Hm Hcover Hk Hreg Hfam] H Hj.
  unfold bloom_filter_add_string_alt in H.
  destruct (n <? number_hashes bf); [simplify_eq|].
  destruct (add_loop _ _ _ _ _) as [A|] eqn:HA; simplify_eq/=.
  pose proof (add_loop_length _ _ _ _ _ _ HA) as HlenA.
  unfold region_ok in Hreg.
  rewrite <- (add_loop_bits _ _ _ _ _ _ Hm (proj1 Hj) HA).
  destruct (__is_on_disk bf =? 1) eqn:Hdisk; [|by simplify_eq/=].
  destruct (write_counter _ A) as [A'|] eqn:HA'; simplify_eq/=.
  eapply write_counter_bits; [|exact HA'|exact Hj].
  rewrite HlenA. exact Hreg.
Qed.

(** X3: a successful [bloom_filter_add_string] on a valid filter sets
    the bits of the key's positions and no other bit of the array: a
    bit is set afterwards exactly when it was set before or is one of
    those positions. *)
Theorem insert_sets_only_its_positions (bf bf' : BloomFilter) (x : string)
    (j : Z) :
  valid_filter bf ->
  bloom_filter_add_string bf x = Some (BLOOM_SUCCESS, bf') ->
  0 <= j < 8 * bloom_length bf ->
  bit_on (bloom bf') j <-> bit_on (bloom bf) j \/ j ∈ key_positions bf x.
Proof.
  intros Hv H Hj.
  destruct (valid_family _ Hv) as (hf & Hhf & _).
  unfold bloom_filter_add_string, bloom_filter_calculate_hashes in H.
  unfold key_positions. rewrite Hhf in *. simpl in H.
  by apply (add_string_alt_bits _ _ _ _ _ Hv H).
Qed.

Lemma insert_sets_only_its_positions_witness :
  bit_on (bloom filter_hello) 303 <->
  bit_on (bloom filter_100) 303 \/ 303 ∈ key_positions filter_100 "hello".
Proof.
  apply (insert_sets_only_its_positions filter_100 filter_hello "hello" 303).
  - exact filter_100_valid.
  - exact add_hello.
  - split; [apply Z.leb_le|apply Z.ltb_lt]; reflexivity.
Defined.

(** ** What a membership test answers *)

Lemma check_bit_nonzero (A : list Z) (k c : Z) :
  0 <= k -> check_bit A k = Some c -> (c =? 0) = false -> bit_on A k.
Proof.
  intros Hk H Hc. unfold check_bit in H.
  destruct (A !! Z.to_nat (k / 8)) as [b|] eqn:Hb; simplify_eq/=.
  exists b. split; [done|].
  rewrite land_bit_zero in Hc by (apply Z.mod_pos_bound; lia).
  by destruct (Z.testbit b (k mod 8)).
Qed.

Lemma check_bit_zero (A : list Z) (k c : Z) :
  0 <= k -> check_bit A k = Some c -> (c =? 0) = true -> ~ bit_on A k.
Proof.
  intros Hk H Hc (b' & Hb' & Hbit). unfold check_bit in H.
  rewrite Hb' in H. simplify_eq/=.
  rewrite land_bit_zero, Hbit in Hc by (apply Z.mod_pos_bound; lia).
  discriminate.
Qed.

Lemma check_loop_success (m : Z) (hs : list Z) (n i : nat) (A : list Z) :
  0 < m -> check_loop m hs i n A = Some BLOOM_SUCCESS ->
  forall i', (i <= i' < i + n)%nat ->
    exists h, hs !! i' = Some h /\ bit_on A (h mod m).
Proof.
  intros Hm. revert i.
  induction n as [|n IH]; intros i H i' Hi'; [lia|]. simpl in H.
  destruct (hs !! i) as [h|] eqn:Hh; simplify_eq/=.
  rewrite umod_pos in H by done. simpl in H.
  destruct (check_bit A (h mod m)) as [c|] eqn:Hc; simplify_eq/=.
  destruct (c =? 0) eqn:Hc0; [discriminate|].
  destruct (decide (i' = i)) as [->|Hne].
  - exists h. split; [done|].
    eapply check_bit_nonzero; [|exact Hc|exact Hc0].
    apply Z.mod_pos_bound, Hm.
  - apply (IH _ H). lia.
Qed.

Lemma check_loop_defined (m : Z) (hs : list Z) (n i : nat) (A : list Z) :
  0 < m -> m <= 8 * Z.of_nat (length A) -> (i + n <= length hs)%nat ->
  check_loop m hs i n A = Some BLOOM_SUCCESS \/
  check_loop m hs i n A = Some BLOOM_FAILURE.
Proof.
  intros Hm HA. revert i.
  induction n as [|n IH]; intros i Hn; simpl; [by left|].
  destruct (lookup_lt_is_Some_2 hs i) as [h ->]; [lia|]. simpl.
  rewrite umod_pos by done. simpl. unfold check_bit.
  destruct (lookup_lt_is_Some_2 A (Z.to_nat (h mod m / 8))) as [b ->].
  { by apply byte_index_in_range. }
  simpl. destruct (_ =? 0); [by right|]. apply IH. lia.
Qed.

Lemma check_string_alt_exact (bf : BloomFilter) (hs : list Z) (n : Z) :
  valid_filter bf -> number_hashes bf <= n ->
  (Z.to_nat (number_hashes bf) <= length hs)%nat ->
  (bloom_filter_check_string_alt bf hs n = Some BLOOM_SUCCESS \/
   bloom_filter_check_string_alt bf hs n = Some BLOOM_FAILURE) /\
  (bloom_filter_check_string_alt bf hs n = Some BLOOM_SUCCESS <->
   forall j, j ∈ positions (number_bits bf) hs (Z.to_nat (number_hashes bf))
     -> bit_on (bloom bf) j).
Proof.
  intros [Hm Hcover Hk Hreg Hfam] Hn Hhs.
  unfold bloom_filter_check_string_alt.
  destruct (Z.ltb_spec n (number_hashes bf)); [lia|]. split.
  - apply check_loop_defined; [done| |lia].
    unfold region_ok in Hreg. destruct (__is_on_disk bf =? 1); lia.
  - split.
    + intros Hs j Hj. apply elem_of_positions in Hj as (i & h & Hi & Hh & ->).
      destruct (check_loop_success _ _ _ _ _ Hm Hs i) as (h' & Hh' & Hon);
        [lia|].
      by simplify_eq.
    + intros Hall. apply check_loop_on; [done|]. intros i Hi.
      destruct (lookup_lt_is_Some_2 hs i) as [h Hh]; [lia|].
      exists h. split; [done|]. apply Hall, elem_of_positions.
      exists i, h. split; [lia|done].
Qed.

Lemma key_hashes_length (bf : BloomFilter) (hf : HashFunction) (x : string) :
  valid_filter bf -> hash_function bf = Some hf -> hash_contract hf ->
  length (hf (to_int (number_hashes bf)) x) = Z.to_nat (number_hashes bf).
Proof.
  intros Hv Hhf Hc. rewrite Hc, to_int_small; [done|apply Hv].
Qed.

Lemma valid_family_contract (bf : BloomFilter) (hf : HashFunction) :
  valid_filter bf -> hash_function bf = Some hf -> hash_contract hf.
Proof.
  intros Hv Hhf. destruct (valid_family _ Hv) as (hf' & Hhf' & Hc).
  congruence.
Qed.

(** X4: on a valid filter [bloom_filter_check_string] always answers,
    and it answers [BLOOM_SUCCESS] exactly when every position of the
    key is set in the bit array ([BLOOM_FAILURE] as soon as one is
    clear). *)
Theorem check_answers_all_positions_set (bf : BloomFilter) (x : string) :
  valid_filter bf ->
  (bloom_filter_check_string bf x = Some BLOOM_SUCCESS \/
   bloom_filter_check_string bf x = Some BLOOM_FAILURE) /\
  (bloom_filter_check_string bf x = Some BLOOM_SUCCESS <->
   forall j, j ∈ key_positions bf x -> bit_on (bloom bf) j).
Proof.
  intros Hv. destruct (valid_family _ Hv) as (hf & Hhf & Hc).
  unfold bloom_filter_check_string, bloom_filter_calculate_hashes,
    key_positions.
  rewrite Hhf. simpl. apply check_string_alt_exact; [done|lia|].
  by rewrite (key_hashes_length bf hf x Hv Hhf Hc).
Qed.

Lemma check_answers_all_positions_set_witness :
  (bloom_filter_check_string filter_hello "hello" = Some BLOOM_SUCCESS \/
   bloom_filter_check_string filter_hello "hello" = Some BLOOM_FAILURE) /\
  (bloom_filter_check_string filter_hello "hello" = Some BLOOM_SUCCESS <->
   forall j, j ∈ key_positions filter_hello "hello" ->
     bit_on (bloom filter_hello) j).
Proof.
  apply (check_answers_all_positions_set filter_hello "hello").
  exact filter_hello_valid.
Defined.

(** X5: a key a valid filter reports present stays reported present
    through every history of inserts, tests and reports, whether it
    was inserted or is a false positive: no operation of a history
    clears a bit. *)
Theorem positives_persist (bf bf' : BloomFilter) (x : string)
    (ops : list operation) :
  valid_filter bf ->
  bloom_filter_check_string bf x = Some BLOOM_SUCCESS ->
  run ops bf = Some bf' ->
  bloom_filter_check_string bf' x = Some BLOOM_SUCCESS.
Proof.
  intros Hv Hcheck Hrun.
  destruct (valid_family _ Hv) as (hf & Hhf & Hc).
  destruct (run_valid _ _ _ Hv Hrun) as [Hv' (Hm' & Hk' & Hh' & Hbits)].
  pose proof (valid_bits _ Hv) as Hm.
  unfold bloom_filter_check_string, bloom_filter_calculate_hashes in *.
  rewrite Hh', Hk'. rewrite Hhf in *. simpl in *.
  unfold bloom_filter_check_string_alt in *.
  rewrite Hk', Hm'. rewrite Z.ltb_irrefl in *.
  apply check_loop_on; [done|]. intros i Hi.
  destruct (check_loop_success _ _ _ _ _ Hm Hcheck i Hi) as (h & Hh & Hon).
  exists h. split; [done|]. apply Hbits; [|done].
  apply Z.mod_pos_bound, Hm.
Qed.

Lemma positives_persist_witness :
  bloom_filter_check_string filter_history "hello" = Some BLOOM_SUCCESS.
Proof.
  apply (positives_persist filter_hello filter_history "hello" history).
  - exact filter_hello_valid.
  - reflexivity.
  - exact run_history.
Defined.

(** ** Bytes from bits, and stores into the trailer *)

Lemma bit_on_byte (A : list Z) (idx : nat) (r b : Z) :
  A !! idx = Some b -> 0 <= r < 8 ->
  bit_on A (8 * Z.of_nat idx + r) <-> Z.testbit b r = true.
Proof.
  intros Hb Hr. unfold bit_on.
  replace ((8 * Z.of_nat idx + r) / 8) with (Z.of_nat idx)
    by (apply (Z.div_unique_pos _ 8 _ r); lia).
  replace ((8 * Z.of_nat idx + r) mod 8) with r
    by (apply (Z.mod_unique_pos _ 8 (Z.of_nat idx) r); lia).
  rewrite Nat2Z.id, Hb. split; [by intros (b' & [= ->] & ?)|eauto].
Qed.

Lemma byte_eq_of_bits (a b : Z) :
  0 <= a < 256 -> 0 <= b < 256 ->
  (forall r, 0 <= r < 8 -> Z.testbit a r = Z.testbit b r) -> a = b.
Proof.
  intros Ha Hb Hbits. apply Z.bits_inj'. intros r Hr.
  destruct (Z_lt_le_dec r 8) as [Hlt|Hge]; [apply Hbits; lia|].
  rewrite <- (Z.mod_small a (2 ^ 8)), <- (Z.mod_small b (2 ^ 8)) by lia.
  by rewrite !Z.mod_pow2_bits_high by lia.
Qed.

Lemma arrays_agree (A B : list Z) (bl : Z) (idx : nat) :
  Forall (fun b => 0 <= b < 256) A -> Forall (fun b => 0 <= b < 256) B ->
  length A = length B -> bl <= Z.of_nat (length A) ->
  (forall j, 0 <= j < 8 * bl -> bit_on A j <-> bit_on B j) ->
  Z.of_nat idx < bl -> A !! idx = B !! idx.
Proof.
  intros HA HB Hlen Hbl Hbits Hidx.
  destruct (lookup_lt_is_Some_2 A idx) as [a Ha]; [lia|].
  destruct (lookup_lt_is_Some_2 B idx) as [b Hb]; [lia|].
  rewrite Ha, Hb. f_equal.
  apply byte_eq_of_bits.
  - exact (Forall_lookup_1 _ _ _ _ HA Ha).
  - exact (Forall_lookup_1 _ _ _ _ HB Hb).
  - intros r Hr.
    pose proof (Hbits (8 * Z.of_nat idx + r)) as Hiff.
    rewrite (bit_on_byte A idx r a Ha Hr), (bit_on_byte B idx r b Hb Hr)
      in Hiff.
    specialize (Hiff ltac:(lia)).
    destruct (Z.testbit a r), (Z.testbit b r); intuition congruence.
Qed.

Lemma write_at_lookup (src : list Z) (i : nat) (A A' : list Z) (j : nat) :
  write_at i src A = Some A' ->
  A' !! j = if decide (i <= j < i + length src)%nat
            then src !! (j - i)%nat else A !! j.
Proof.
  revert i A. induction src as [|b src IH]; intros i A H; simplify_eq/=.
  { case_decide; [lia|done]. }
  case_decide as Hi; [|done].
  rewrite (IH _ _ H).
  destruct (decide (j = i)) as [->|Hne].
  - rewrite decide_False by lia. rewrite decide_True by lia.
    rewrite Nat.sub_diag. simpl. by apply list_lookup_insert_eq.
  - case_decide.
    + rewrite decide_True by lia.
      by replace (j - i)%nat with (S (j - S i)) by lia.
    + rewrite decide_False by lia. by apply list_lookup_insert_ne.
Qed.

Lemma set_bit_outside (A A' : list Z) (k : Z) (idx : nat) :
  Z.to_nat (k / 8) <> idx -> set_bit A k = Some A' -> A' !! idx = A !! idx.
Proof.
  intros Hne H. unfold set_bit in H.
  destruct (A !! Z.to_nat (k / 8)); simplify_eq/=.
  by apply list_lookup_insert_ne.
Qed.

Lemma add_loop_outside (m : Z) (hs : list Z) (n i : nat) (A A' : list Z)
    (idx : nat) :
  0 < m -> m <= 8 * Z.of_nat idx -> add_loop m hs i n A = Some A' ->
  A' !! idx = A !! idx.
Proof.
  intros Hm Hidx. revert i A.
  induction n as [|n IH]; intros i A H; simplify_eq/=; [done|].
  destruct (hs !! i) as [h|]; simplify_eq/=.
  rewrite umod_pos in H by done. simpl in H.
  destruct (set_bit A (h mod m)) as [A1|] eqn:H1; simplify_eq/=.
  rewrite (IH _ _ H). eapply set_bit_outside; [|exact H1].
  pose proof (Z.mod_pos_bound h m Hm).
  assert (h mod m / 8 < Z.of_nat idx)
    by (apply Z.div_lt_upper_bound; lia).
  assert (0 <= h mod m / 8) by (apply Z.div_pos; lia).
  lia.
Qed.

(** The shape of a filter after a successful insert. *)
Lemma add_string_alt_success (bf bf' : BloomFilter) hs n :
  bloom_filter_add_string_alt bf hs n = Some (BLOOM_SUCCESS, bf') ->
  exists A0,
    add_loop (number_bits bf) hs 0 (Z.to_nat (number_hashes bf)) (bloom bf)
      = Some A0 /\
    bf' = with_elements_added (u64 (elements_added bf + 1))
            (with_bloom (bloom bf') bf) /\
    (if __is_on_disk bf =? 1
     then write_counter (u64 (elements_added bf + 1)) A0 = Some (bloom bf')
     else bloom bf' = A0).
Proof.
  unfold bloom_filter_add_string_alt. intros H.
  destruct (n <? number_hashes bf); [simplify_eq|].
  destruct (add_loop _ _ _ _ _) as [A0|] eqn:HA0; simplify_eq/=.
  exists A0. split; [done|].
  destruct (__is_on_disk bf =? 1); simplify_eq/=; [|done].
  destruct (write_counter _ A0) as [A|] eqn:HA; simplify_eq/=. done.
Qed.

(** The bytes after the bit array: untouched in memory, the counter
    written through on disk. *)
Lemma add_string_alt_trailer (bf bf' : BloomFilter) hs n (idx : nat) :
  valid_filter bf ->
  bloom_filter_add_string_alt bf hs n = Some (BLOOM_SUCCESS, bf') ->
  bloom_length bf <= Z.of_nat idx ->
  bloom bf' !! idx =
    if (__is_on_disk bf =? 1)
       && bool_decide (length (bloom bf) - 12 <= idx
                       < length (bloom bf) - 12 + 8)%nat
    then le_bytes 8 (elements_added bf') !! (idx - (length (bloom bf) - 12))%nat
    else bloom bf !! idx.
Proof.
  intros [Hm Hcover Hk Hreg Hfam] H Hidx.
  destruct (add_string_alt_success _ _ _ _ H) as (A0 & HA0 & Hbf' & Hdisk).
  pose proof (add_loop_length _ _ _ _ _ _ HA0) as Hlen0.
  assert (HA0idx : A0 !! idx = bloom bf !! idx).
  { eapply add_loop_outside; [exact Hm| |exact HA0]. lia. }
  replace (elements_added bf') with (u64 (elements_added bf + 1))
    by (by rewrite Hbf').
  destruct (__is_on_disk bf =? 1); simpl; [|by rewrite Hdisk].
  unfold write_counter in Hdisk. case_decide; [|done].
  rewrite (write_at_lookup _ _ _ _ idx Hdisk), le_bytes_length, Hlen0.
  case_bool_decide.
  - by rewrite decide_True.
  - by rewrite decide_False.
Qed.

Lemma add_string_alt_typed (bf bf' : BloomFilter) hs n st :
  typed_filter bf ->
  bloom_filter_add_string_alt bf hs n = Some (st, bf') -> typed_filter bf'.
Proof.
  intros Ht H. apply (step_typed (add_string_alt hs n) bf bf' Ht).
  simpl. by rewrite H.
Qed.

Lemma add_string_alt_length (bf bf' : BloomFilter) hs n :
  bloom_filter_add_string_alt bf hs n = Some (BLOOM_SUCCESS, bf') ->
  length (bloom bf') = length (bloom bf).
Proof.
  intros H.
  destruct (add_string_alt_success _ _ _ _ H) as (A0 & HA0 & _ & Hdisk).
  pose proof (add_loop_length _ _ _ _ _ _ HA0) as Hlen0.
  destruct (__is_on_disk bf =? 1); [|congruence].
  destruct (write_counter_spec _ _ _ Hdisk) as [Hlen _]. congruence.
Qed.

Lemma region_covers (bf : BloomFilter) :
  region_ok bf -> bloom_length bf <= Z.of_nat (length (bloom bf)).
Proof.
  unfold region_ok. destruct (__is_on_disk bf =? 1); lia.
Qed.

(** ** Inserting a key the filter already reports *)

Lemma insert_of_present_alt (bf bf' : BloomFilter) hs n :
  valid_filter bf -> typed_filter bf ->
  (forall j, j ∈ positions (number_bits bf) hs (Z.to_nat (number_hashes bf))
     -> bit_on (bloom bf) j) ->
  bloom_filter_add_string_alt bf hs n = Some (BLOOM_SUCCESS, bf') ->
  take (Z.to_nat (bloom_length bf)) (bloom bf')
    = take (Z.to_nat (bloom_length bf)) (bloom bf) /\
  elements_added bf' = u64 (elements_added bf + 1).
Proof.
  intros Hv Ht Hall H. split.
  - pose proof (add_string_alt_length _ _ _ _ H) as Hlen.
    pose proof (add_string_alt_typed _ _ _ _ _ Ht H) as Ht'.
    apply list_eq. intros idx.
    destruct (decide (idx < Z.to_nat (bloom_length bf))%nat) as [Hi|Hi].
    + rewrite !lookup_take_lt by done.
      apply (arrays_agree _ _ (bloom_length bf));
        [apply Ht'|apply Ht|done| | |lia].
      * rewrite Hlen. apply region_covers, Hv.
      * intros j Hj. rewrite (add_string_alt_bits _ _ _ _ _ Hv H Hj).
        split; [intros [?|?]; auto|auto].
    + by rewrite !lookup_take_ge by lia.
  - destruct (add_string_alt_success _ _ _ _ H) as (_ & _ & -> & _). done.
Qed.

(** X6: inserting a key that a valid filter already reports present
    (a duplicate, or a false positive) changes no byte of the bit
    array; the insert still succeeds in adding one to
    [elements_added]. *)
Theorem insert_of_present_key (bf bf' : BloomFilter) (x : string) :
  valid_filter bf -> typed_filter bf ->
  bloom_filter_check_string bf x = Some BLOOM_SUCCESS ->
  bloom_filter_add_string bf x = Some (BLOOM_SUCCESS, bf') ->
  take (Z.to_nat (bloom_length bf)) (bloom bf')
    = take (Z.to_nat (bloom_length bf)) (bloom bf) /\
  elements_added bf' = u64 (elements_added bf + 1).
Proof.
  intros Hv Ht Hcheck Hadd.
  destruct (valid_family _ Hv) as (hf & Hhf & Hc).
  unfold bloom_filter_check_string, bloom_filter_add_string,
    bloom_filter_calculate_hashes in *.
  rewrite Hhf in *. simpl in *.
  refine (insert_of_present_alt bf bf' _ (number_hashes bf) Hv Ht _ Hadd).
  destruct (check_string_alt_exact bf (hf (to_int (number_hashes bf)) x)
              (number_hashes bf) Hv) as [_ Hiff]; [lia| |by apply Hiff].
  by rewrite (key_hashes_length bf hf x Hv Hhf Hc).
Qed.

Lemma insert_of_present_key_witness :
  take (Z.to_nat (bloom_length filter_hello)) (bloom filter_history)
    = take (Z.to_nat (bloom_length filter_hello))
        (bloom (with_elements_added 2
                  (with_bloom history_bytes filter_100))) /\
  elements_added filter_history
    = u64 (elements_added (with_elements_added 2
                             (with_bloom history_bytes filter_100)) + 1).
Proof.
  apply (insert_of_present_key
           (with_elements_added 2 (with_bloom history_bytes filter_100))
           filter_history "hello").
  - refine (proj1 (run_valid [add_string "world"; check_string "absent"]
                     filter_hello _ filter_hello_valid _)).
    reflexivity.
  - refine (proj1 (run_round_trip_ready log_series
                     [add_string "world"; check_string "absent"]
                     filter_hello _ filter_hello_typed filter_hello_derived
                     _)).
    reflexivity.
  - reflexivity.
  - reflexivity.
Defined.

(** ** Two inserts *)

Lemma two_inserts (bf bf1 bf2 : BloomFilter) hs1 hs2 n1 n2 :
  valid_filter bf -> typed_filter bf ->
  bloom_filter_add_string_alt bf hs1 n1 = Some (BLOOM_SUCCESS, bf1) ->
  bloom_filter_add_string_alt bf1 hs2 n2 = Some (BLOOM_SUCCESS, bf2) ->
  bf2 = with_elements_added (u64 (u64 (elements_added bf + 1) + 1))
          (with_bloom (bloom bf2) bf) /\
  length (bloom bf2) = length (bloom bf) /\
  Forall (fun b => 0 <= b < 256) (bloom bf2) /\
  (forall j, 0 <= j < 8 * bloom_length bf ->
     bit_on (bloom bf2) j <->
     bit_on (bloom bf) j
     \/ j ∈ positions (number_bits bf) hs1 (Z.to_nat (number_hashes bf))
     \/ j ∈ positions (number_bits bf) hs2 (Z.to_nat (number_hashes bf))) /\
  (forall idx : nat, bloom_length bf <= Z.of_nat idx ->
     bloom bf2 !! idx =
       if (__is_on_disk bf =? 1)
          && bool_decide (length (bloom bf) - 12 <= idx
                          < length (bloom bf) - 12 + 8)%nat
       then le_bytes 8 (u64 (u64 (elements_added bf + 1) + 1))
              !! (idx - (length (bloom bf) - 12))%nat
       else bloom bf !! idx).
Proof.
  intros Hv Ht H1 H2.
  destruct (add_string_alt_valid _ _ _ _ _ Hv H1) as [Hv1 _].
  pose proof (add_string_alt_typed _ _ _ _ _ Ht H1) as Ht1.
  pose proof (add_string_alt_typed _ _ _ _ _ Ht1 H2) as Ht2.
  pose proof (add_string_alt_length _ _ _ _ H1) as Hlen1.
  pose proof (add_string_alt_length _ _ _ _ H2) as Hlen2.
  destruct (add_string_alt_success _ _ _ _ H1) as (_ & _ & Hbf1 & _).
  destruct (add_string_alt_success _ _ _ _ H2) as (_ & _ & Hbf2 & _).
  assert (Hsame : number_bits bf1 = number_bits bf /\
                  number_hashes bf1 = number_hashes bf /\
                  bloom_length bf1 = bloom_length bf /\
                  __is_on_disk bf1 = __is_on_disk bf /\
                  elements_added bf1 = u64 (elements_added bf + 1))
    by (by rewrite Hbf1).
  destruct Hsame as (Hm1 & Hk1 & Hbl1 & Hd1 & He1).
  split; [|split; [|split; [|split]]].
  - transitivity (with_elements_added (u64 (elements_added bf1 + 1))
                    (with_bloom (bloom bf2) bf1)); [exact Hbf2|].
    rewrite He1, Hbf1. reflexivity.
  - congruence.
  - apply Ht2.
  - intros j Hj.
    rewrite (add_string_alt_bits _ _ _ _ _ Hv1 H2) by (by rewrite Hbl1).
    rewrite (add_string_alt_bits _ _ _ _ _ Hv H1 Hj), Hm1, Hk1. tauto.
  - intros idx Hidx.
    rewrite (add_string_alt_trailer _ _ _ _ idx Hv1 H2) by (by rewrite Hbl1).
    rewrite (add_string_alt_trailer _ _ _ _ idx Hv H1 Hidx).
    rewrite Hd1, Hlen1.
    replace (elements_added bf2) with (u64 (u64 (elements_added bf + 1) + 1))
      by (rewrite Hbf2; simpl; by rewrite He1).
    destruct (_ && _); done.
Qed.

Lemma two_inserts_commute_alt (bf bf1 bf12 bf2 bf21 : BloomFilter)
    hs1 hs2 n1 n2 :
  valid_filter bf -> typed_filter bf ->
  bloom_filter_add_string_alt bf hs1 n1 = Some (BLOOM_SUCCESS, bf1) ->
  bloom_filter_add_string_alt bf1 hs2 n2 = Some (BLOOM_SUCCESS, bf12) ->
  bloom_filter_add_string_alt bf hs2 n2 = Some (BLOOM_SUCCESS, bf2) ->
  bloom_filter_add_string_alt bf2 hs1 n1 = Some (BLOOM_SUCCESS, bf21) ->
  bf12 = bf21.
Proof.
  intros Hv Ht H1 H12 H2 H21.
  destruct (two_inserts _ _ _ _ _ _ _ Hv Ht H1 H12)
    as (Ha & Hlena & Hta & Hbitsa & Htraila).
  destruct (two_inserts _ _ _ _ _ _ _ Hv Ht H2 H21)
    as (Hb & Hlenb & Htb & Hbitsb & Htrailb).
  rewrite Ha, Hb. f_equal. f_equal.
  apply list_eq. intros idx.
  destruct (Z_lt_le_dec (Z.of_nat idx) (bloom_length bf)) as [Hi|Hi].
  - apply (arrays_agree _ _ (bloom_length bf)); [done|done|congruence| | |done].
    + rewrite Hlena. apply region_covers, Hv.
    + intros j Hj. rewrite (Hbitsa j Hj), (Hbitsb j Hj). tauto.
  - by rewrite (Htraila idx Hi), (Htrailb idx Hi).
Qed.

(** X7: two inserts commute: on a valid filter, inserting [x] then [y]
    leaves the same filter (bit array, counter and, on disk, trailer)
    as inserting [y] then [x]. *)
Theorem inserts_commute (bf bf1 bf12 bf2 bf21 : BloomFilter) (x y : string) :
  valid_filter bf -> typed_filter bf ->
  bloom_filter_add_string bf x = Some (BLOOM_SUCCESS, bf1) ->
  bloom_filter_add_string bf1 y = Some (BLOOM_SUCCESS, bf12) ->
  bloom_filter_add_string bf y = Some (BLOOM_SUCCESS, bf2) ->
  bloom_filter_add_string bf2 x = Some (BLOOM_SUCCESS, bf21) ->
  bf12 = bf21.
Proof.
  intros Hv Ht H1 H12 H2 H21.
  destruct (valid_family _ Hv) as (hf & Hhf & _).
  unfold bloom_filter_add_string, bloom_filter_calculate_hashes in *.
  rewrite Hhf in H1, H2. simpl in H1, H2.
  destruct (add_string_alt_success _ _ _ _ H1) as (_ & _ & Hbf1 & _).
  destruct (add_string_alt_success _ _ _ _ H2) as (_ & _ & Hbf2 & _).
  assert (Hf1 : hash_function bf1 = Some hf /\
                number_hashes bf1 = number_hashes bf)
    by (by rewrite Hbf1).
  assert (Hf2 : hash_function bf2 = Some hf /\
                number_hashes bf2 = number_hashes bf)
    by (by rewrite Hbf2).
  destruct Hf1 as [Hh1 Hk1], Hf2 as [Hh2 Hk2].
  rewrite Hh1, Hk1 in H12. rewrite Hh2, Hk2 in H21. simpl in H12, H21.
  exact (two_inserts_commute_alt _ _ _ _ _ _ _ _ _ Hv Ht H1 H12 H2 H21).
Qed.

Lemma inserts_commute_witness :
  bloom_filter_add_string filter_100 "hello"
    = Some (BLOOM_SUCCESS, filter_hello) /\
  bloom_filter_add_string filter_hello "world"
    = Some (BLOOM_SUCCESS, filter_pair) /\
  bloom_filter_add_string filter_100 "world"
    = Some (BLOOM_SUCCESS, filter_world) /\
  bloom_filter_add_string filter_world "hello"
    = Some (BLOOM_SUCCESS, filter_pair) /\
  filter_pair = filter_pair.
Proof.
  assert (H1 : bloom_filter_add_string filter_100 "hello"
               = Some (BLOOM_SUCCESS, filter_hello)) by reflexivity.
  assert (H12 : bloom_filter_add_string filter_hello "world"
                = Some (BLOOM_SUCCESS, filter_pair)) by reflexivity.
  assert (H2 : bloom_filter_add_string filter_100 "world"
               = Some (BLOOM_SUCCESS, filter_world)) by reflexivity.
  assert (H21 : bloom_filter_add_string filter_world "hello"
                = Some (BLOOM_SUCCESS, filter_pair)) by reflexivity.
  repeat (split; [assumption|]).
  apply (inserts_commute filter_100 filter_hello filter_pair filter_world
           filter_pair "hello" "world").
  - exact filter_100_valid.
  - split.
    + apply (bool_decide_unpack _). vm_compute. reflexivity.
    + split; apply Z.leb_le; reflexivity.
    + split; apply Z.leb_le; reflexivity.
    + split; [apply Z.leb_le|apply Z.ltb_lt]; reflexivity.
  - exact H1.
  - exact H12.
  - exact H2.
  - exact H21.
Defined.

(** ** The binary layout *)

Lemma le_value_le_bytes (w : nat) (z : Z) :
  le_value (le_bytes w z) = z mod 256 ^ Z.of_nat w.
Proof.
  revert z. induction w as [|w IH]; intros z.
  { simpl. by rewrite Z.mod_1_r. }
  cbn [le_bytes le_value]. rewrite IH.
  rewrite Nat2Z.inj_succ, Z.pow_succ_r by lia.
  rewrite (Z.rem_mul_r z 256 (256 ^ Z.of_nat w)) by lia. lia.
Qed.

Lemma le_value_le_bytes_8 (z : Z) :
  0 <= z <= UINT64_MAX -> le_value (le_bytes 8 z) = z.
Proof.
  unfold UINT64_MAX. intros Hz. rewrite le_value_le_bytes.
  change (256 ^ Z.of_nat 8) with (2 ^ 64). apply Z.mod_small. lia.
Qed.

Lemma le_value_le_bytes_4 (z : Z) :
  0 <= z < 2 ^ 32 -> le_value (le_bytes 4 z) = z.
Proof.
  intros Hz. rewrite le_value_le_bytes.
  change (256 ^ Z.of_nat 4) with (2 ^ 32). by apply Z.mod_small.
Qed.

Lemma trailer_decode (body a b c : list Z) :
  length a = 8%nat -> length b = 8%nat -> length c = 4%nat ->
  let content := body ++ a ++ b ++ c in
  length content = (length body + 20)%nat /\
  take 8 (drop (length content - 20) content) = a /\
  take 8 (drop 8 (drop (length content - 20) content)) = b /\
  take 4 (drop 16 (drop (length content - 20) content)) = c.
Proof.
  intros Ha Hb Hc content.
  assert (Hlen : length content = (length body + 20)%nat).
  { unfold content. rewrite !length_app. lia. }
  split; [exact Hlen|]. rewrite Hlen.
  replace (length body + 20 - 20)%nat with (length body) by lia.
  unfold content. rewrite drop_app_length. split; [|split].
  - by rewrite take_app_length'.
  - rewrite drop_app_length' by done. by rewrite take_app_length'.
  - rewrite (app_assoc a b), drop_app_length'
      by (rewrite length_app; lia).
    by rewrite take_ge by lia.
Qed.

Lemma file_image_length (bf : BloomFilter) :
  0 <= bloom_length bf <= Z.of_nat (length (bloom bf)) ->
  Z.of_nat (length (file_image bf)) = bloom_length bf + 20.
Proof.
  intros Hbl. unfold file_image.
  rewrite !length_app, length_take, !le_bytes_length. lia.
Qed.

Lemma calculate_inv (log : float -> float) (bf bf' : BloomFilter) :
  calculate_optimal_hashes log bf = Some bf' ->
  optimal_hashes (log (float_of_bits32 (false_positive_probability bf)))
    (log 2.0%float) (to_long (estimated_elements bf))
  = Some (number_bits bf', number_hashes bf', bloom_length bf') /\
  bf' = with_parameters (number_hashes bf') (number_bits bf')
          (bloom_length bf') bf.
Proof.
  unfold calculate_optimal_hashes. intros H.
  destruct (optimal_hashes _ _ _) as [[[m k] l]|]; by simplify_eq/=.
Qed.

(** What [read_from_file] rebuilds from a file of the layout: the
    counters and the probability of the trailer, the parameters they
    derive, and the bit array (copied in memory, mapped on disk). *)
Lemma read_from_file_layout (log : float -> float) (target : BloomFilter)
    (body : list Z) (n e p m k l on_disk : Z) :
  0 <= n <= UINT64_MAX -> 0 <= e <= UINT64_MAX -> 0 <= p < 2 ^ 32 ->
  optimal_hashes (log (float_of_bits32 p)) (log 2.0%float) (to_long n)
    = Some (m, k, l) ->
  Z.of_nat (length body) = l ->
  let content := body ++ le_bytes 8 n ++ le_bytes 8 e ++ le_bytes 4 p in
  read_from_file log target content on_disk
  = Some (if on_disk =? 0
          then with_bloom body
                 (with_parameters k m l (with_counters n e p target))
          else with_mapping content (l + 20)
                 (with_parameters k m l (with_counters n e p target))).
Proof.
  intros Hn He Hp Hopt Hbody content.
  destruct (trailer_decode body (le_bytes 8 n) (le_bytes 8 e) (le_bytes 4 p))
    as (Hlen & Ha & Hb & Hc); try apply le_bytes_length.
  fold content in Hlen, Ha, Hb, Hc.
  unfold read_from_file. case_decide; [|lia].
  cbv zeta. rewrite Ha, Hb, Hc.
  rewrite !le_value_le_bytes_8, le_value_le_bytes_4 by done.
  rewrite (calculate_from_optimal log (with_counters n e p target) m k l)
    by exact Hopt.
  simpl. destruct (on_disk =? 0).
  - destruct (Z.ltb_spec l 0); [lia|]. do 2 f_equal.
    rewrite Hlen.
    replace (Z.to_nat l - (length body + 20))%nat with 0%nat by lia.
    simpl. rewrite app_nil_r.
    unfold content. rewrite take_app_length'; [done|lia].
  - do 3 f_equal. lia.
Qed.

Lemma export_writes (fs fs1 : FileSystem) (path : string) (bytes : list Z) :
  fopen_w fs path = Some fs1 ->
  fopen_r (fwrite fs1 path bytes) path = Some bytes.
Proof.
  unfold fopen_w, fopen_r, fwrite. intros H.
  destruct (permitted fs path) eqn:Hp; simplify_eq/=.
  rewrite Hp. by rewrite lookup_alter_eq, lookup_insert_eq.
Qed.

(** X8: the binary round trip.  For a filter in memory whose fields
    hold values of their types and whose derived fields are those of
    its parameters, [bloom_filter_export] to a path that can be opened
    writes the file image, from which [bloom_filter_import_alt] rebuilds
    the same bit array, counters, probability and parameters, and
    which [bloom_filter_import_on_disk_alt] maps as a filter on disk
    with the same fields. *)
Theorem binary_round_trip (MD5 : list Z -> list Z) (log : float -> float)
    (fs : FileSystem) (bf target : BloomFilter) (path : string)
    (h : option HashFunction) :
  typed_filter bf -> derived_ok log bf ->
  __is_on_disk bf <> 1 ->
  0 <= bloom_length bf <= Z.of_nat (length (bloom bf)) ->
  permitted fs path = true ->
  exists fs',
    bloom_filter_export fs bf path = Some (BLOOM_SUCCESS, fs') /\
    fopen_r fs' path = Some (file_image bf) /\
    bloom_filter_import_alt MD5 log fs' target path h
    = Some (BLOOM_SUCCESS,
            mkBloomFilter (estimated_elements bf)
              (false_positive_probability bf) (number_hashes bf)
              (number_bits bf)
              (take (Z.to_nat (bloom_length bf)) (bloom bf))
              (bloom_length bf) (elements_added bf)
              (hash_function (bloom_filter_set_hash_function MD5 target h))
              0 (filepointer target) (__filesize target)) /\
    bloom_filter_import_on_disk_alt MD5 log fs' target path h
    = Some (BLOOM_SUCCESS,
            mkBloomFilter (estimated_elements bf)
              (false_positive_probability bf) (number_hashes bf)
              (number_bits bf) (file_image bf)
              (bloom_length bf) (elements_added bf)
              (hash_function (bloom_filter_set_hash_function MD5 target h))
              1 (Some path) (bloom_length bf + 20)).
Proof.
  intros [Hbytes Hest Hadd Hprob] Hd Hmem Hbl Hperm.
  assert (Hopen : fopen_w fs path
                  = Some (mkFileSystem (<[path := []]> (files fs))
                            (permitted fs)))
    by (unfold fopen_w; by rewrite Hperm).
  assert (Hwrite : write_to_file bf 0 = Some (file_image bf)).
  { unfold write_to_file. destruct (Z.ltb_spec (bloom_length bf) 0); [lia|].
    simpl. case_decide; [done|lia]. }
  exists (fwrite (mkFileSystem (<[path := []]> (files fs)) (permitted fs))
            path (file_image bf)).
  split; [|split; [|split]].
  - unfold bloom_filter_export.
    destruct (Z.eqb_spec (__is_on_disk bf) 1); [lia|].
    rewrite Hopen, Hwrite. reflexivity.
  - exact (export_writes _ _ _ _ Hopen).
  - unfold bloom_filter_import_alt.
    rewrite (export_writes _ _ _ _ Hopen). unfold file_image.
    rewrite (read_from_file_layout log target _ _ _ _ (number_bits bf)
               (number_hashes bf) (bloom_length bf) 0 Hest Hadd Hprob
               (derived_ok_optimal log bf Hd))
      by (rewrite length_take; lia).
    reflexivity.
  - unfold bloom_filter_import_on_disk_alt.
    rewrite (export_writes _ _ _ _ Hopen). unfold file_image.
    rewrite (read_from_file_layout log _ _ _ _ _ (number_bits bf)
               (number_hashes bf) (bloom_length bf) 1 Hest Hadd Hprob
               (derived_ok_optimal log bf Hd))
      by (rewrite length_take; lia).
    reflexivity.
Qed.

Lemma binary_round_trip_witness :
  exists fs',
    bloom_filter_export (mkFileSystem ∅ (fun _ => true)) filter_hello
      "filter.blm" = Some (BLOOM_SUCCESS, fs') /\
    fopen_r fs' "filter.blm" = Some (file_image filter_hello) /\
    bloom_filter_import_alt toy_digest log_series fs' blank "filter.blm" None
    = Some (BLOOM_SUCCESS,
            mkBloomFilter (estimated_elements filter_hello)
              (false_positive_probability filter_hello)
              (number_hashes filter_hello) (number_bits filter_hello)
              (take (Z.to_nat (bloom_length filter_hello))
                 (bloom filter_hello))
              (bloom_length filter_hello) (elements_added filter_hello)
              (hash_function
                 (bloom_filter_set_hash_function toy_digest blank None))
              0 (filepointer blank) (__filesize blank)) /\
    bloom_filter_import_on_disk_alt toy_digest log_series fs' blank
      "filter.blm" None
    = Some (BLOOM_SUCCESS,
            mkBloomFilter (estimated_elements filter_hello)
              (false_positive_probability filter_hello)
              (number_hashes filter_hello) (number_bits filter_hello)
              (file_image filter_hello)
              (bloom_length filter_hello) (elements_added filter_hello)
              (hash_function
                 (bloom_filter_set_hash_function toy_digest blank None))
              1 (Some "filter.blm"%string)
              (bloom_length filter_hello + 20)).
Proof.
  apply (binary_round_trip toy_digest log_series
           (mkFileSystem ∅ (fun _ => true)) filter_hello blank "filter.blm"
           None).
  - exact filter_hello_typed.
  - exact filter_hello_derived.
  - discriminate.
  - split; apply Z.leb_le; reflexivity.
  - reflexivity.
Defined.

(** ** Filters on disk *)

Lemma invalid_parameters_range (n p : Z) :
  invalid_parameters n p = false -> 0 <= n <= UINT64_MAX.
Proof.
  unfold invalid_parameters. intros H.
  apply orb_false_elim in H as [H _]. apply orb_false_elim in H as [H _].
  apply orb_false_elim in H as [H1 H2].
  apply Z.leb_gt in H1. rewrite Z.gtb_ltb in H2. apply Z.ltb_ge in H2. lia.
Qed.

(** X9: [bloom_filter_init_on_disk_alt] on parameters that pass the
    test.  When the path can be opened it creates a file of
    [bloom_length] zero bytes followed by the trailer (the estimate,
    a counter of 0, the probability) and returns a filter mapped over
    it whose region is that file; when the path cannot be opened it
    returns [BLOOM_FAILURE] after the parameters and the counter have
    been written into the structure, and creates nothing. *)
Theorem init_on_disk_creates (MD5 : list Z -> list Z) (log : float -> float)
    (fs : FileSystem) (bf : BloomFilter) (n p : Z) (path : string)
    (h : option HashFunction) (m k l : Z) :
  invalid_parameters n p = false -> 0 <= p < 2 ^ 32 ->
  optimal_hashes (log (float_of_bits32 p)) (log 2.0%float) (to_long n)
    = Some (m, k, l) ->
  0 <= l ->
  (permitted fs path = true ->
   exists fs',
     bloom_filter_init_on_disk_alt MD5 log fs bf n p path h
     = Some (BLOOM_SUCCESS,
             mkBloomFilter n p k m
               (calloc l ++ le_bytes 8 n ++ le_bytes 8 0 ++ le_bytes 4 p)
               l 0
               (hash_function (bloom_filter_set_hash_function MD5 bf h))
               1 (Some path) (l + 20),
             fs') /\
     fopen_r fs' path
     = Some (calloc l ++ le_bytes 8 n ++ le_bytes 8 0 ++ le_bytes 4 p)) /\
  (permitted fs path = false ->
   bloom_filter_init_on_disk_alt MD5 log fs bf n p path h
   = Some (BLOOM_FAILURE,
           with_elements_added 0
             (with_parameters k m l (with_request n p bf)),
           fs)).
Proof.
  intros Hvalid Hp Hopt Hl.
  pose proof (invalid_parameters_range _ _ Hvalid) as Hn.
  unfold bloom_filter_init_on_disk_alt. rewrite Hvalid.
  rewrite (calculate_from_optimal log (with_request n p bf) m k l)
    by exact Hopt.
  simpl. split.
  - intros Hperm.
    assert (Hopen : fopen_w fs path
                    = Some (mkFileSystem (<[path := []]> (files fs))
                              (permitted fs)))
      by (unfold fopen_w; by rewrite Hperm).
    rewrite Hopen. unfold write_to_file. simpl.
    destruct (Z.ltb_spec l 0); [lia|]. simpl.
    unfold bloom_filter_import_on_disk_alt.
    rewrite (export_writes _ _ _ _ Hopen).
    rewrite (read_from_file_layout log _ (replicate (Z.to_nat l) 0) n 0 p
               m k l 1 Hn ltac:(unfold UINT64_MAX; lia) Hp Hopt)
      by (rewrite length_replicate; lia).
    simpl. eexists. split; [reflexivity|].
    exact (export_writes _ _ _ _ Hopen).
  - intros Hperm. unfold fopen_w. by rewrite Hperm.
Qed.

Lemma init_on_disk_creates_witness :
  exists fs',
    bloom_filter_init_on_disk_alt toy_digest log_series
      (mkFileSystem ∅ (fun _ => true)) blank 100 ONE_PERCENT "filter.blm"
      None
    = Some (BLOOM_SUCCESS,
            mkBloomFilter 100 ONE_PERCENT 7 959
              (calloc 120 ++ le_bytes 8 100 ++ le_bytes 8 0
                 ++ le_bytes 4 ONE_PERCENT)
              120 0
              (hash_function
                 (bloom_filter_set_hash_function toy_digest blank None))
              1 (Some "filter.blm"%string) (120 + 20),
            fs') /\
    fopen_r fs' "filter.blm"
    = Some (calloc 120 ++ le_bytes 8 100 ++ le_bytes 8 0
              ++ le_bytes 4 ONE_PERCENT).
Proof.
  refine (proj1 (init_on_disk_creates toy_digest log_series
                   (mkFileSystem ∅ (fun _ => true)) blank 100 ONE_PERCENT
                   "filter.blm" None 959 7 120 _ _ _ _) _).
  - reflexivity.
  - split; [apply Z.leb_le|apply Z.ltb_lt]; reflexivity.
  - reflexivity.
  - apply Z.leb_le. reflexivity.
  - reflexivity.
Defined.


Lemma persisted_trailer (bf : BloomFilter) :
  0 <= bloom_length bf <= Z.of_nat (length (bloom bf)) ->
  persisted bf <->
  drop (Z.to_nat (bloom_length bf)) (bloom bf)
  = le_bytes 8 (estimated_elements bf) ++ le_bytes 8 (elements_added bf)
    ++ le_bytes 4 (false_positive_probability bf).
Proof.
  intros Hbl. unfold persisted, file_image. split.
  - intros H. rewrite H at 1.
    rewrite drop_app_length'; [done|]. rewrite length_take. lia.
  - intros H. rewrite <- H. by rewrite take_drop.
Qed.






Local Opaque le_bytes.

(** X11: [bloom_filter_clear] on a mapped filter zeroes the bit array
    and the counter of the structure but writes nothing to the
    trailer: the file keeps the counter it had, so the region is the
    file image of the cleared filter only if the counter was already
    0. *)
Theorem clear_leaves_trailer (bf : BloomFilter) :
  region_ok bf -> __is_on_disk bf = 1 -> persisted bf ->
  0 <= bloom_length bf -> 0 <= elements_added bf <= UINT64_MAX ->
  exists bf',
    bloom_filter_clear bf = Some (BLOOM_SUCCESS, bf') /\
    elements_added bf' = 0 /\
    drop (Z.to_nat (bloom_length bf)) (bloom bf')
      = le_bytes 8 (estimated_elements bf)
        ++ le_bytes 8 (elements_added bf)
        ++ le_bytes 4 (false_positive_probability bf) /\
    (persisted bf' <-> elements_added bf = 0).
Proof.
  intros Hreg Hdisk Hp Hbl Hea.
  assert (Hlen : Z.of_nat (length (bloom bf)) = bloom_length bf + 20).
  { unfold region_ok in Hreg. by rewrite Hdisk in Hreg. }
  apply persisted_trailer in Hp; [|lia].
  unfold bloom_filter_clear.
  destruct (clear_loop_defined (Z.to_nat (bloom_length bf)) 0 (bloom bf))
    as [A HA]; [lia|].
  rewrite HA. simpl. eexists. split; [reflexivity|]. simpl.
  split; [done|].
  destruct (clear_loop_spec _ _ _ _ HA) as (HlenA & _ & Hrest).
  assert (Hdrop : drop (Z.to_nat (bloom_length bf)) A
                  = drop (Z.to_nat (bloom_length bf)) (bloom bf)).
  { apply list_eq. intros i. rewrite !lookup_drop. apply Hrest. lia. }
  split; [by rewrite Hdrop|].
  rewrite persisted_trailer by (simpl; lia). simpl.
  rewrite Hdrop, Hp. split.
  - intros Heq. apply app_inv_head in Heq.
    apply (f_equal (take 8)) in Heq.
    rewrite !take_app_length' in Heq by (by rewrite le_bytes_length).
    apply (f_equal le_value) in Heq.
    rewrite !le_value_le_bytes_8 in Heq by (unfold UINT64_MAX in *; lia).
    done.
  - by intros ->.
Qed.

Local Transparent le_bytes.

Lemma clear_leaves_trailer_witness :
  exists bf',
    bloom_filter_clear filter_mapped_hello = Some (BLOOM_SUCCESS, bf') /\
    elements_added bf' = 0 /\
    drop (Z.to_nat (bloom_length filter_mapped_hello)) (bloom bf')
      = le_bytes 8 (estimated_elements filter_mapped_hello)
        ++ le_bytes 8 (elements_added filter_mapped_hello)
        ++ le_bytes 4 (false_positive_probability filter_mapped_hello) /\
    (persisted bf' <-> elements_added filter_mapped_hello = 0).
Proof.
  apply (clear_leaves_trailer filter_mapped_hello).
  - reflexivity.
  - reflexivity.
  - reflexivity.
  - apply Z.leb_le. reflexivity.
  - split; apply Z.leb_le; reflexivity.
Defined.

(** ** Sizes *)

Lemma string_of_list_ascii_length (l : list ascii) :
  String.length (string_of_list_ascii l) = length l.
Proof. induction l as [|c l IH]; simpl; [done|by rewrite IH]. Qed.

(** X12: [bloom_filter_export_size] is [bloom_length + 20]; it is the
    number of bytes [write_to_file] sends to the file of
    [bloom_filter_export], and the string
    [bloom_filter_export_hex_string] returns has twice as many
    characters, which with the terminator is the size of the buffer
    it allocates. *)
Theorem export_sizes (bf : BloomFilter) :
  0 <= bloom_length bf <= Z.of_nat (length (bloom bf)) ->
  bloom_length bf + 20 <= UINT64_MAX ->
  bloom_filter_export_size bf = bloom_length bf + 20 /\
  (exists bytes,
     write_to_file bf 0 = Some bytes /\
     Z.of_nat (length bytes) = bloom_filter_export_size bf) /\
  (exists hex,
     bloom_filter_export_hex_string bf = Some hex /\
     Z.of_nat (String.length hex) = 2 * bloom_filter_export_size bf).
Proof.
  unfold UINT64_MAX. intros Hbl Hmax.
  assert (Hsize : bloom_filter_export_size bf = bloom_length bf + 20).
  { unfold bloom_filter_export_size, u64.
    rewrite (Z.mod_small (bloom_length bf * 1)) by lia.
    rewrite Z.mod_small by lia. lia. }
  split; [exact Hsize|]. rewrite Hsize. split.
  - exists (file_image bf). split; [|by apply file_image_length].
    unfold write_to_file.
    destruct (Z.ltb_spec (bloom_length bf) 0); [lia|].
    simpl. case_decide; [done|lia].
  - unfold bloom_filter_export_hex_string.
    destruct (Z.ltb_spec (bloom_length bf) 0); [lia|].
    destruct (export_loop_defined (Z.to_nat (bloom_length bf)) 0 (bloom bf))
      as [body Hbody]; [lia|].
    rewrite Hbody. simpl. eexists. split; [reflexivity|].
    destruct (export_loop_spec _ _ _ _ Hbody) as [Hlen _].
    rewrite string_of_list_ascii_length, !length_app, Hlen.
    rewrite !sprintf_hex_length. lia.
Qed.

Lemma export_sizes_witness :
  bloom_filter_export_size filter_hello = bloom_length filter_hello + 20 /\
  (exists bytes,
     write_to_file filter_hello 0 = Some bytes /\
     Z.of_nat (length bytes) = bloom_filter_export_size filter_hello) /\
  (exists hex,
     bloom_filter_export_hex_string filter_hello = Some hex /\
     Z.of_nat (String.length hex)
       = 2 * bloom_filter_export_size filter_hello).
Proof.
  apply (export_sizes filter_hello).
  - split; apply Z.leb_le; reflexivity.
  - apply Z.leb_le. reflexivity.
Defined.

(** ** Hashes computed ahead *)

Lemma add_loop_agree (m : Z) (hs hs' : list Z) (n i : nat) (A : list Z) :
  (forall i', (i <= i' < i + n)%nat -> hs !! i' = hs' !! i') ->
  add_loop m hs i n A = add_loop m hs' i n A.
Proof.
  revert i A. induction n as [|n IH]; intros i A Hag; simpl; [done|].
  rewrite <- (Hag i) by lia.
  destruct (hs !! i) as [h|]; simpl; [|done].
  destruct (umod h m) as [k|]; simpl; [|done].
  destruct (set_bit A k) as [A1|]; simpl; [|done].
  apply IH. intros i' Hi'. apply Hag. lia.
Qed.

Lemma check_loop_agree (m : Z) (hs hs' : list Z) (n i : nat) (A : list Z) :
  (forall i', (i <= i' < i + n)%nat -> hs !! i' = hs' !! i') ->
  check_loop m hs i n A = check_loop m hs' i n A.
Proof.
  revert i. induction n as [|n IH]; intros i Hag; simpl; [done|].
  rewrite <- (Hag i) by lia.
  destruct (hs !! i) as [h|]; simpl; [|done].
  destruct (umod h m) as [k|]; simpl; [|done].
  destruct (check_bit A k) as [c|]; simpl; [|done].
  destruct (c =? 0); [done|].
  apply IH. intros i' Hi'. apply Hag. lia.
Qed.

Lemma md5_rounds_prefix (MD5 : list Z -> list Z) (n n' : nat)
    (data : list Z) (i : nat) :
  (n <= n')%nat -> (i < n)%nat ->
  md5_rounds MD5 n data !! i = md5_rounds MD5 n' data !! i.
Proof.
  revert n' data i. induction n as [|n IH]; intros n' data i Hn Hi; [lia|].
  destruct n' as [|n']; [lia|]. simpl.
  destruct i as [|i]; [done|]. simpl. apply IH; lia.
Qed.

(** X13: with the default hash family, the hashes
    [bloom_filter_calculate_hashes] returns for a count of at least
    [number_hashes] can stand for the key: the insert and the test on
    those hashes do what the insert and the test on the key do (the
    chained digests of a longer request start with those of a shorter
    one, and the loops read [number_hashes] of them). *)
Theorem hashes_stand_for_key (MD5 : list Z -> list Z) (bf : BloomFilter)
    (x : string) (count : Z) (hashes : list Z) :
  hash_function bf = Some (md5_hash_default MD5) ->
  0 <= number_hashes bf <= count -> count <= INT_MAX ->
  bloom_filter_calculate_hashes bf x count = Some hashes ->
  bloom_filter_add_string_alt bf hashes count = bloom_filter_add_string bf x
  /\ bloom_filter_check_string_alt bf hashes count
     = bloom_filter_check_string bf x.
Proof.
  intros Hhf Hk Hcount Hhashes.
  unfold bloom_filter_add_string, bloom_filter_check_string.
  unfold bloom_filter_calculate_hashes in *. rewrite Hhf in *.
  simplify_eq/=.
  rewrite !to_int_small by lia.
  assert (Hag : forall i', (0 <= i' < 0 + Z.to_nat (number_hashes bf))%nat ->
            md5_hash_default MD5 count x !! i'
            = md5_hash_default MD5 (number_hashes bf) x !! i').
  { intros i' Hi'. unfold md5_hash_default. symmetry.
    apply md5_rounds_prefix; lia. }
  unfold bloom_filter_add_string_alt, bloom_filter_check_string_alt.
  rewrite Z.ltb_irrefl.
  destruct (Z.ltb_spec count (number_hashes bf)); [lia|].
  by rewrite (add_loop_agree _ _ _ _ _ _ Hag),
    (check_loop_agree _ _ _ _ _ _ Hag).
Qed.

Lemma hashes_stand_for_key_witness :
  bloom_filter_add_string_alt filter_100
    (md5_hash_default toy_digest 12 "hello") 12
  = bloom_filter_add_string filter_100 "hello" /\
  bloom_filter_check_string_alt filter_100
    (md5_hash_default toy_digest 12 "hello") 12
  = bloom_filter_check_string filter_100 "hello".
Proof.
  apply (hashes_stand_for_key toy_digest filter_100 "hello" 12).
  - reflexivity.
  - split; apply Z.leb_le; reflexivity.
  - apply Z.leb_le. reflexivity.
  - reflexivity.
Defined.

(** ** Histories by key never leave the buffers *)

Lemma step_by_key_defined (op : operation) (bf : BloomFilter) :
  valid_filter bf -> by_key op = true -> is_Some (step op bf).
Proof.
  intros Hv Hop. destruct (valid_family _ Hv) as (hf & Hhf & Hc).
  pose proof (key_hashes_length bf hf) as Hlen.
  destruct op; try discriminate; simpl.
  - unfold bloom_filter_add_string, bloom_filter_calculate_hashes.
    rewrite Hhf. simpl.
    destruct (add_string_alt_defined bf (hf (to_int (number_hashes bf)) str)
                (number_hashes bf) Hv) as [bf' ->]; [lia| |by eauto].
    by rewrite (Hlen str Hv Hhf Hc).
  - unfold bloom_filter_check_string, bloom_filter_calculate_hashes.
    rewrite Hhf. simpl.
    destruct (check_string_alt_exact bf (hf (to_int (number_hashes bf)) str)
                (number_hashes bf) Hv) as [[-> | ->] _];
      [lia| |by eauto|by eauto].
    by rewrite (Hlen str Hv Hhf Hc).
  - eauto.
  - unfold bloom_filter_export_hex_string.
    pose proof (valid_bits _ Hv). pose proof (valid_cover _ Hv).
    pose proof (region_covers _ (valid_region _ Hv)).
    destruct (Z.ltb_spec (bloom_length bf) 0); [lia|].
    destruct (export_loop_defined (Z.to_nat (bloom_length bf)) 0 (bloom bf))
      as [body ->]; [lia|].
    simpl. eauto.
  - eauto.
Qed.

(** X14: on a valid filter no history of operations by key (inserts
    and tests of strings, the rate, the hexadecimal export, the export
    size) reaches an undefined operation: every index into the bit
    array and into the hashes is in range, no remainder is taken by
    zero, and the filter stays valid. *)
Theorem histories_by_key_are_defined (ops : list operation)
    (bf : BloomFilter) :
  valid_filter bf -> forallb by_key ops = true ->
  exists bf', run ops bf = Some bf' /\ valid_filter bf'.
Proof.
  revert bf. induction ops as [|op ops IH]; intros bf Hv Hops; simpl.
  { eauto. }
  simpl in Hops. apply andb_prop in Hops as [Hop Hops].
  destruct (step_by_key_defined op bf Hv Hop) as [bf1 H1].
  rewrite H1. simpl. apply IH; [|done].
  exact (proj1 (step_valid _ _ _ Hv H1)).
Qed.

Lemma histories_by_key_are_defined_witness :
  exists bf', run history filter_hello = Some bf' /\ valid_filter bf'.
Proof.
  apply (histories_by_key_are_defined history filter_hello).
  - exact filter_hello_valid.
  - reflexivity.
Defined.

(** ** After destroy *)

(** X15: what [bloom_filter_destroy] leaves has no hash round, no bit
    and no hash family: the insert and the test on given hashes still
    return [BLOOM_SUCCESS] (the test for every key, the insert counting
    one element) without reading the freed array, while the insert and
    the test by key call through the null [hash_function], which is
    undefined. *)
Theorem after_destroy (bf : BloomFilter) (hashes : list Z) (count : Z)
    (x : string) :
  0 <= count ->
  let dead := snd (bloom_filter_destroy bf) in
  bloom_filter_check_string_alt dead hashes count = Some BLOOM_SUCCESS /\
  bloom_filter_add_string_alt dead hashes count
    = Some (BLOOM_SUCCESS, with_elements_added 1 dead) /\
  bloom_filter_check_string dead x = None /\
  bloom_filter_add_string dead x = None /\
  bloom_filter_destroy dead = (BLOOM_SUCCESS, dead).
Proof.
  intros Hcount dead. unfold dead. simpl.
  unfold bloom_filter_check_string_alt, bloom_filter_add_string_alt. simpl.
  destruct (Z.ltb_spec count 0); [lia|]. done.
Qed.

Lemma after_destroy_witness :
  bloom_filter_check_string_alt (snd (bloom_filter_destroy filter_hello))
    [] 0 = Some BLOOM_SUCCESS /\
  bloom_filter_add_string_alt (snd (bloom_filter_destroy filter_hello)) [] 0
    = Some (BLOOM_SUCCESS,
            with_elements_added 1 (snd (bloom_filter_destroy filter_hello)))
  /\
  bloom_filter_check_string (snd (bloom_filter_destroy filter_hello)) "hello"
    = None /\
  bloom_filter_add_string (snd (bloom_filter_destroy filter_hello)) "hello"
    = None /\
  bloom_filter_destroy (snd (bloom_filter_destroy filter_hello))
    = (BLOOM_SUCCESS, snd (bloom_filter_destroy filter_hello)).
Proof.
  apply (after_destroy filter_hello [] 0 "hello"). lia.
Defined.

(** ** A fresh filter *)




